(** * SGIMC: loss families of the quadratic-approximation objective

    Shallow embedding of [sgimc/qa_objective/__init__.py]: the numerically
    stable [sigmoid] and the three loss families [QAObjectiveL2Loss],
    [QAObjectiveHuberLoss] and [QAObjectiveLogLoss], each with its
    [v_func] (value), [g_func] (gradient), [h_func] (Hessian diagonal) and
    [score].

    Numbers are modelled as mathematical reals ([R]): the statements are
    about the real-valued functions the code denotes.  Where the double
    precision the program runs in departs from them in kind, the saturation
    of [sigmoid] to exactly 0 and 1, [sigmoid64] shows it on IEEE binary64
    numbers and the ranges are stated with their bounds included.  A
    one-dimensional NumPy array is a [list R]; NumPy's broadcasting of
    one-dimensional operands and the [ValueError] it raises are written
    out, because the source relies on them for every check of its
    arguments. *)

From Stdlib Require Import String Reals Lra Lia List Bool Arith.
From Stdlib Require Import ZArith Permutation.
From Stdlib Require Import PrimFloat.
Import ListNotations.

Open Scope R_scope.

(** ** Python results *)

Inductive exn : Type :=
| ValueError
| AttributeError.

Inductive result (A : Type) : Type :=
| Ok (a : A)
| Raise (e : exn).

Arguments Ok {A} a.
Arguments Raise {A} e.

Definition bind {A B : Type} (m : result A) (k : A -> result B) : result B :=
  match m with
  | Ok a => k a
  | Raise e => Raise e
  end.

Notation "x <- m ;; k" := (bind m (fun x => k))
  (at level 61, m at next level, right associativity).

Definition is_ok {A : Type} (m : result A) : bool :=
  match m with
  | Ok _ => true
  | Raise _ => false
  end.

(** ** One-dimensional NumPy arrays *)

Definition ndarray := list R.

(** Shape of the result of a binary operation on operands of lengths [n]
    and [m]: equal lengths stay, a length of one stretches to the other,
    anything else cannot be broadcast. *)
Definition broadcast_len (n m : nat) : option nat :=
  if Nat.eqb n m then Some n
  else if Nat.eqb n 1 then Some m
  else if Nat.eqb m 1 then Some n
  else None.

(** [broadcast_to n a]: the operand [a] seen at length [n]. *)
Definition broadcast_to {A : Type} (n : nat) (a : list A) : list A :=
  if Nat.eqb (length a) n then a
  else match a with
       | [x] => repeat x n
       | _ => a
       end.

Fixpoint zip_with {A B C : Type} (f : A -> B -> C)
    (a : list A) (b : list B) : list C :=
  match a, b with
  | x :: a', y :: b' => f x y :: zip_with f a' b'
  | _, _ => []
  end.

(** A binary ufunc applied to two arrays. *)
Definition ufunc2 {A B C : Type} (f : A -> B -> C)
    (a : list A) (b : list B) : result (list C) :=
  match broadcast_len (length a) (length b) with
  | Some n => Ok (zip_with f (broadcast_to n a) (broadcast_to n b))
  | None => Raise ValueError
  end.

(** A binary ufunc applied in place ([a op= b]): the broadcast shape must be
    the shape of [a]. *)
Definition ufunc2_inplace {A B : Type} (f : A -> B -> A)
    (a : list A) (b : list B) : result (list A) :=
  match broadcast_len (length a) (length b) with
  | Some n =>
      if Nat.eqb n (length a)
      then Ok (zip_with f a (broadcast_to n b))
      else Raise ValueError
  | None => Raise ValueError
  end.

(** [np.where(c, a, b)] on three arrays. *)
Definition np_where (c : list bool) (a b : ndarray) : result ndarray :=
  match broadcast_len (length c) (length a) with
  | Some n1 =>
      match broadcast_len n1 (length b) with
      | Some n =>
          Ok (zip_with (fun (cx : bool * R) y => if fst cx then snd cx else y)
                (zip_with pair (broadcast_to n c) (broadcast_to n a))
                (broadcast_to n b))
      | None => Raise ValueError
      end
  | None => Raise ValueError
  end.

(** Comparisons of reals as booleans. *)
Definition Rgtb (x y : R) : bool := if Rgt_dec x y then true else false.
Definition Rleb (x y : R) : bool := if Rle_dec x y then true else false.

(** [np.sign] on one real. *)
Definition sign (x : R) : R :=
  if Rlt_dec x 0 then -1 else if Rgt_dec x 0 then 1 else 0.

(** [np.log1p] on one real. *)
Definition log1p (x : R) : R := ln (1 + x).

(** A Python [bool] used as a number. *)
Definition of_bool (b : bool) : R := if b then 1 else 0.

(** Array against array. *)
Definition np_sub (a b : ndarray) : result ndarray := ufunc2 Rminus a b.
Definition np_mul (a b : ndarray) : result ndarray := ufunc2 Rmult a b.

(** Array against a Python scalar, and unary ufuncs: no shape can clash. *)
Definition np_abs (a : ndarray) : ndarray := map Rabs a.
Definition np_neg (a : ndarray) : ndarray := map Ropp a.
Definition np_exp (a : ndarray) : ndarray := map exp a.
Definition np_log1p (a : ndarray) : ndarray := map log1p a.
Definition np_sign (a : ndarray) : ndarray := map sign a.
Definition np_square (a : ndarray) : ndarray := map (fun x => x ^ 2) a.
Definition np_gt_scalar (a : ndarray) (s : R) : list bool :=
  map (fun x => Rgtb x s) a.
Definition np_le_scalar (a : ndarray) (s : R) : list bool :=
  map (fun x => Rleb x s) a.
Definition scalar_mul (s : R) (a : ndarray) : ndarray := map (Rmult s) a.
Definition scalar_add (s : R) (a : ndarray) : ndarray := map (Rplus s) a.
Definition scalar_rsub (s : R) (a : ndarray) : ndarray :=
  map (fun x => s - x) a.
Definition scalar_rdiv (s : R) (a : ndarray) : ndarray :=
  map (fun x => s / x) a.
Definition sub_scalar (a : ndarray) (s : R) : ndarray :=
  map (fun x => x - s) a.
Definition np_minimum_scalar (a : ndarray) (s : R) : ndarray :=
  map (fun x => Rmin x s) a.
Definition bool_mul_scalar (c : list bool) (s : R) : ndarray :=
  map (fun b => of_bool b * s) c.
Definition np_ones (n : nat) : ndarray := repeat 1 n.

Definition sum (a : ndarray) : R := fold_right Rplus 0 a.
Definition mean (a : ndarray) : R := sum a / INR (length a).

(** ** The metrics of scikit-learn the source calls

    [sklearn.metrics] is a dependency, not part of the repository.  Both
    metrics start with [check_consistent_length], which raises [ValueError]
    when the two arrays differ in length; [mean_squared_error] also refuses
    an array with no sample. *)

Definition mean_squared_error (y_true y_pred : ndarray) : result R :=
  if negb (Nat.eqb (length y_true) (length y_pred)) then Raise ValueError
  else if Nat.eqb (length y_true) 0 then Raise ValueError
  else Ok (mean (zip_with (fun a b => (a - b) ^ 2) y_true y_pred)).

Definition Reqb (x y : R) : bool := if Req_dec_T x y then true else false.

(** On arrays of labels: the fraction of positions where the labels agree. *)
Definition accuracy_score (y_true y_pred : ndarray) : result R :=
  if negb (Nat.eqb (length y_true) (length y_pred)) then Raise ValueError
  else Ok (mean (zip_with (fun a b => of_bool (Reqb a b)) y_true y_pred)).

(** ** Objects and classes *)

Inductive class : Type :=
| QuadraticApproximation
| L2Loss
| HuberLoss
| LogLoss.

(** The arguments every constructor passes up to
    [QuadraticApproximation.__init__]. *)
Definition matrix := list (list R).

Record init_args : Type := {
  arg_X : matrix;
  arg_W : matrix;
  arg_Y : matrix;
  arg_H : matrix;
  arg_R : matrix;
  arg_n_threads : nat;
  arg_approx_type : string
}.

(** An instance: its class, what [QuadraticApproximation.__init__] (module
    [base], whose body is not embedded) left in it once it ran, and the
    attribute [epsilon] once it was set. *)
Record object (Base : Type) : Type := {
  ob_class : class;
  ob_base : option Base;
  ob_epsilon : option R
}.

Arguments ob_class {Base} _.
Arguments ob_base {Base} _.
Arguments ob_epsilon {Base} _.

(** A fresh instance of a class, before [__init__] runs on it. *)
Definition new {Base : Type} (c : class) : object Base :=
  {| ob_class := c; ob_base := None; ob_epsilon := None |}.

Definition set_base {Base : Type} (self : object Base) (b : Base)
    : object Base :=
  {| ob_class := ob_class self;
     ob_base := Some b;
     ob_epsilon := ob_epsilon self |}.

(** [self.epsilon = eps] *)
Definition set_epsilon {Base : Type} (self : object Base) (eps : R)
    : object Base :=
  {| ob_class := ob_class self;
     ob_base := ob_base self;
     ob_epsilon := Some eps |}.

(** [self.epsilon] *)
Definition get_epsilon {Base : Type} (self : object Base) : result R :=
  match ob_epsilon self with
  | Some eps => Ok eps
  | None => Raise AttributeError
  end.

(** A keyword argument with a default. *)
Definition default {A : Type} (d : A) (a : option A) : A :=
  match a with
  | Some x => x
  | None => d
  end.

Module QAObjectiveL2Loss.

Definition __init__ {Base : Type} (base_init : init_args -> result Base)
    (self : object Base) (X W Y H R_ : matrix) (n_threads : option nat)
    (approx_type : option string) : result (object Base) :=
  b <- base_init {| arg_X := X; arg_W := W; arg_Y := Y; arg_H := H;
                    arg_R := R_;
                    arg_n_threads := default 1%nat n_threads;
                    arg_approx_type := default "quadratic"%string
                                         approx_type |} ;;
  Ok (set_base self b).

Definition v_func (predict target : ndarray) : result ndarray :=
  d <- np_sub predict target ;;
  Ok (scalar_mul 0.5 (np_square d)).

Definition g_func (predict target : ndarray) : result ndarray :=
  np_sub predict target.

Definition h_func (predict target : ndarray) : result ndarray :=
  Ok (np_ones (length target)).

Definition score (predict target : ndarray) : result R :=
  mean_squared_error target predict.

End QAObjectiveL2Loss.

Module QAObjectiveHuberLoss.

Definition __init__ {Base : Type} (base_init : init_args -> result Base)
    (self : object Base) (X W Y H R_ : matrix) (epsilon : option R)
    (n_threads : option nat) (approx_type : option string)
    : result (object Base) :=
  self <- QAObjectiveL2Loss.__init__ base_init self X W Y H R_
            (Some (default 1%nat n_threads))
            (Some (default "quadratic"%string approx_type)) ;;
  Ok (set_epsilon self (default 1e-2 epsilon)).

Definition v_func {Base : Type} (self : object Base)
    (predict target : ndarray) : result ndarray :=
  eps <- get_epsilon self ;;
  d <- np_sub predict target ;;
  let resid := np_abs d in
  np_where (np_gt_scalar resid eps)
           (scalar_mul eps (sub_scalar resid (eps / 2)))
           (scalar_mul 0.5 (np_square resid)).

Definition g_func {Base : Type} (self : object Base)
    (predict target : ndarray) : result ndarray :=
  eps <- get_epsilon self ;;
  resid <- np_sub predict target ;;
  np_where (np_gt_scalar (np_abs resid) eps)
           (scalar_mul eps (np_sign resid))
           resid.

Definition h_func {Base : Type} (self : object Base)
    (predict target : ndarray) : result ndarray :=
  eps <- get_epsilon self ;;
  d <- np_sub predict target ;;
  Ok (bool_mul_scalar (np_le_scalar (np_abs d) eps) 1).

End QAObjectiveHuberLoss.

Definition sigmoid (x : ndarray) : result ndarray :=
  let out := scalar_rdiv 1 (scalar_add 1 (np_exp (np_neg (np_abs x)))) in
  np_where (np_gt_scalar x 0) out (scalar_rsub 1 out).



Module QAObjectiveLogLoss.

Definition __init__ {Base : Type} (base_init : init_args -> result Base)
    (self : object Base) (X W Y H R_ : matrix) (n_threads : option nat)
    (approx_type : option string) : result (object Base) :=
  b <- base_init {| arg_X := X; arg_W := W; arg_Y := Y; arg_H := H;
                    arg_R := R_;
                    arg_n_threads := default 1%nat n_threads;
                    arg_approx_type := default "quadratic"%string
                                         approx_type |} ;;
  Ok (set_base self b).

Definition v_func (logit target : ndarray) : result ndarray :=
  let out := np_log1p (np_exp (np_neg (np_abs logit))) in
  tl <- np_mul target logit ;;
  ufunc2_inplace Rminus out (np_minimum_scalar tl 0).

Definition g_func (logit target : ndarray) : result ndarray :=
  lt <- np_mul logit target ;;
  s <- sigmoid lt ;;
  st <- np_mul s target ;;
  np_sub st target.

Definition h_func (logit target : ndarray) : result ndarray :=
  prob <- sigmoid logit ;;
  np_mul prob (scalar_rsub 1 prob).

Definition score (logit target : ndarray) : result R :=
  let predict :=
    sub_scalar (scalar_mul 2 (map of_bool (np_gt_scalar logit 0))) 1 in
  acc <- accuracy_score target predict ;;
  Ok (1 - acc).

End QAObjectiveLogLoss.

(** ** Attribute lookup along the classes *)

Inductive attr : Type :=
| a_v_func
| a_g_func
| a_h_func
| a_score.

Inductive value : Type :=
| VArray (a : ndarray)
| VFloat (r : R).

Definition method (Base : Type) : Type :=
  object Base -> ndarray -> ndarray -> result value.

(** A [staticmethod] ignores the instance it is reached through. *)
Definition static_array {Base : Type}
    (f : ndarray -> ndarray -> result ndarray) : method Base :=
  fun _ p t => a <- f p t ;; Ok (VArray a).

Definition static_float {Base : Type}
    (f : ndarray -> ndarray -> result R) : method Base :=
  fun _ p t => r <- f p t ;; Ok (VFloat r).

Definition bound_array {Base : Type}
    (f : object Base -> ndarray -> ndarray -> result ndarray) : method Base :=
  fun self p t => a <- f self p t ;; Ok (VArray a).

Definition superclass (c : class) : option class :=
  match c with
  | QuadraticApproximation => None
  | L2Loss => Some QuadraticApproximation
  | HuberLoss => Some L2Loss
  | LogLoss => Some QuadraticApproximation
  end.

(** What each class body defines.  The body of [QuadraticApproximation]
    lives in module [base] and is not embedded: [base_dict] stands for it. *)
Definition class_dict {Base : Type} (base_dict : attr -> option (method Base))
    (c : class) (a : attr) : option (method Base) :=
  match c, a with
  | QuadraticApproximation, _ => base_dict a
  | L2Loss, a_v_func => Some (static_array QAObjectiveL2Loss.v_func)
  | L2Loss, a_g_func => Some (static_array QAObjectiveL2Loss.g_func)
  | L2Loss, a_h_func => Some (static_array QAObjectiveL2Loss.h_func)
  | L2Loss, a_score => Some (static_float QAObjectiveL2Loss.score)
  | HuberLoss, a_v_func => Some (bound_array QAObjectiveHuberLoss.v_func)
  | HuberLoss, a_g_func => Some (bound_array QAObjectiveHuberLoss.g_func)
  | HuberLoss, a_h_func => Some (bound_array QAObjectiveHuberLoss.h_func)
  | HuberLoss, a_score => None
  | LogLoss, a_v_func => Some (static_array QAObjectiveLogLoss.v_func)
  | LogLoss, a_g_func => Some (static_array QAObjectiveLogLoss.g_func)
  | LogLoss, a_h_func => Some (static_array QAObjectiveLogLoss.h_func)
  | LogLoss, a_score => Some (static_float QAObjectiveLogLoss.score)
  end.

Fixpoint lookup_from {Base : Type} (base_dict : attr -> option (method Base))
    (depth : nat) (c : class) (a : attr) : option (method Base) :=
  match class_dict base_dict c a with
  | Some m => Some m
  | None =>
      match depth, superclass c with
      | S depth', Some parent => lookup_from base_dict depth' parent a
      | _, _ => None
      end
  end.

(** The longest chain of classes has three links. *)
Definition lookup {Base : Type} (base_dict : attr -> option (method Base))
    (c : class) (a : attr) : option (method Base) :=
  lookup_from base_dict 3 c a.

(** [self.a(predict, target)] *)
Definition call {Base : Type} (base_dict : attr -> option (method Base))
    (self : object Base) (a : attr) (predict target : ndarray)
    : result value :=
  match lookup base_dict (ob_class self) a with
  | Some m => m self predict target
  | None => Raise AttributeError
  end.

(** [QAObjectiveHuberLoss(X, W, Y, H, R, ...)] and its siblings. *)
Definition new_L2Loss {Base : Type} (base_init : init_args -> result Base)
    (X W Y H R_ : matrix) (n_threads : option nat)
    (approx_type : option string) : result (object Base) :=
  QAObjectiveL2Loss.__init__ base_init (new L2Loss) X W Y H R_
    n_threads approx_type.

Definition new_HuberLoss {Base : Type} (base_init : init_args -> result Base)
    (X W Y H R_ : matrix) (epsilon : option R) (n_threads : option nat)
    (approx_type : option string) : result (object Base) :=
  QAObjectiveHuberLoss.__init__ base_init (new HuberLoss) X W Y H R_
    epsilon n_threads approx_type.

Definition new_LogLoss {Base : Type} (base_init : init_args -> result Base)
    (X W Y H R_ : matrix) (n_threads : option nat)
    (approx_type : option string) : result (object Base) :=
  QAObjectiveLogLoss.__init__ base_init (new LogLoss) X W Y H R_
    n_threads approx_type.

(** The record a constructor hands to the base class, keyword defaults
    applied. *)
Definition base_args (X W Y H R_ : matrix) (n_threads : option nat)
    (approx_type : option string) : init_args :=
  {| arg_X := X; arg_W := W; arg_Y := Y; arg_H := H; arg_R := R_;
     arg_n_threads := default 1%nat n_threads;
     arg_approx_type := default "quadratic"%string approx_type |}.

(** Modelled from the spec: the constructor of [QuadraticApproximation]
    (module [base], whose body is not embedded).  The specification names no
    failure of its own for it, so this stand-in succeeds and keeps the
    arguments it is given.  The theorems about construction hold for every
    constructor of the base class; this one only serves to run them. *)
Definition keep_args (a : init_args) : result init_args := Ok a.

(** ** The formulas of the specification, one element at a time *)

Module Spec.

Definition l2_value (p t : R) : R := 0.5 * (p - t) ^ 2.

Definition huber_quadratic (resid : R) : R := 0.5 * resid ^ 2.
Definition huber_linear (eps resid : R) : R := eps * (resid - eps / 2).

Definition huber_value (eps p t : R) : R :=
  if Rgt_dec (Rabs (p - t)) eps
  then huber_linear eps (Rabs (p - t))
  else huber_quadratic (Rabs (p - t)).

Definition huber_gradient (eps p t : R) : R :=
  if Rgt_dec (Rabs (p - t)) eps then eps * sign (p - t) else p - t.

Definition huber_hessian (eps p t : R) : R :=
  if Rle_dec (Rabs (p - t)) eps then 1 else 0.

Definition sigmoid (x : R) : R :=
  let t := 1 / (1 + exp (- Rabs x)) in
  if Rgt_dec x 0 then t else 1 - t.

Definition naive_sigmoid (x : R) : R := 1 / (1 + exp (- x)).

Definition log_value (logit target : R) : R :=
  log1p (exp (- Rabs logit)) - Rmin (target * logit) 0.

Definition log_loss (logit target : R) : R :=
  ln (1 + exp (- (target * logit))).

Definition log_gradient (logit target : R) : R :=
  sigmoid (logit * target) * target - target.

Definition log_hessian (logit : R) : R :=
  sigmoid logit * (1 - sigmoid logit).

Definition mse (target predict : ndarray) : R :=
  sum (zip_with (fun t p => (t - p) ^ 2) target predict)
  / INR (length target).

End Spec.

(** ** Reading one entry

    [item r] is the entry of an array of one element that a call returned
    (NumPy's [.item()]); zero stands for every other outcome.  It serves to
    look at a loss function as a function of one prediction. *)
Definition item (r : result ndarray) : R :=
  match r with
  | Ok [y] => y
  | _ => 0
  end.

(** * Utilities of the experiments ([sgimc/utils.py])

    The parts of [utils.py] that decide something themselves: the synthetic
    problem of [make_imc_data], the file name and the opener of [save] and
    [load], the index arithmetic of [mc_split], and the grid of
    [plot_loss].  The operating system, the
    pickler, the random generator and the argument check of scikit-learn
    are interfaces whose operations the functions call in the order of the
    source. *)

Module Utils.

Inductive error : Type :=
| TypeError
| ValueError
| AssertionError
| ZeroDivisionError
| OSError.

Inductive outcome (A : Type) : Type :=
| Return (a : A)
| Throw (e : error).

Arguments Return {A} a.
Arguments Throw {A} e.

(** A dense two-dimensional array: its shape and its entries. *)
Record array2 : Type := {
  rows : nat;
  cols : nat;
  entry : nat -> nat -> R
}.

Fixpoint sum_to (n : nat) (f : nat -> R) : R :=
  match n with
  | O => 0
  | S m => sum_to m f + f m
  end.

(** [np.eye(n, m)] *)
Definition eye (n m : nat) : array2 :=
  {| rows := n; cols := m;
     entry := fun i j => if Nat.eqb i j then 1 else 0 |}.

(** [np.dot(a, b)] on two-dimensional arrays. *)
Definition dot (a b : array2) : outcome array2 :=
  if Nat.eqb (cols a) (rows b)
  then Return {| rows := rows a; cols := cols b;
                 entry := fun i j =>
                   sum_to (cols a) (fun l => entry a i l * entry b l j) |}
  else Throw ValueError.

(** [a.T] *)
Definition transpose (a : array2) : array2 :=
  {| rows := cols a; cols := rows a; entry := fun i j => entry a j i |}.

(** [a += noise], for a [noise] drawn at the shape of [a]. *)
Definition add_entries (a : array2) (noise : nat -> nat -> R) : array2 :=
  {| rows := rows a; cols := cols a;
     entry := fun i j => entry a i j + noise i j |}.

(** [np.where(a >= 0, 1., -1.)] *)
Definition binarized (a : array2) : array2 :=
  {| rows := rows a; cols := cols a;
     entry := fun i j => if Rle_dec 0 (entry a i j) then 1 else -1 |}.

(** What [make_imc_data] asks of the random generator:
    [normal(scale=s, size=(n, m))] gives the entries of an [n] by [m]
    array and the next state, or raises. *)
Record normal_generator (rng : Type) : Type := {
  normal : rng -> R -> nat -> nat -> outcome ((nat -> nat -> R) * rng)
}.

Arguments normal {rng} _ _ _ _ _.

(** The argument [scale]: a float, an integer, or a pair. *)
Inductive scale_arg : Type :=
| ScaleFloat (s : R)
| ScaleInt (s : Z)
| ScalePair (x_scale y_scale : R).

(** What [make_imc_data] returns; [out_R] is there only when
    [return_noisy_only] is false. *)
Record imc_data : Type := {
  out_X : array2;
  out_W : array2;
  out_Y : array2;
  out_H : array2;
  out_R_noise : array2;
  out_R : option array2
}.

Definition obind {A B : Type} (m : outcome A) (k : A -> outcome B)
    : outcome B :=
  match m with
  | Return a => k a
  | Throw e => Throw e
  end.

(** [make_imc_data(n_1, d_1, n_2, d_2, k, scale, noise, random_state,
    binarize, return_noisy_only)] *)
Definition make_imc_data {rng : Type} (rs : normal_generator rng)
    (n_1 d_1 n_2 d_2 k : nat) (scale : scale_arg) (noise : R) (g : rng)
    (binarize return_noisy_only : bool) : outcome imc_data :=
  if negb (Nat.leb k d_1 && Nat.leb k d_2) then Throw AssertionError
  else
    obind
      match scale with
      | ScalePair x_scale y_scale => Return (x_scale, y_scale)
      | ScaleFloat s =>
          if Rgtb s 0 then Return (s, s) else Throw AssertionError
      | ScaleInt _ => Throw AssertionError
      end
      (fun scales =>
    obind (normal rs g (fst scales) n_1 d_1) (fun x =>
    obind (normal rs (snd x) (snd scales) n_2 d_2) (fun y =>
    let X := {| rows := n_1; cols := d_1; entry := fst x |} in
    let Y := {| rows := n_2; cols := d_2; entry := fst y |} in
    let W := eye d_1 k in
    let H := eye d_2 k in
    obind (dot X W) (fun XW =>
    obind (dot Y H) (fun YH =>
    obind (dot XW (transpose YH)) (fun R0 =>
    obind
      (if Rgtb noise 0
       then obind (normal rs (snd y) noise n_1 n_2)
              (fun e => Return (add_entries R0 (fst e)))
       else Return R0)
      (fun R_noise =>
    let R1 := if binarize then binarized R0 else R0 in
    let R_noise1 := if binarize then binarized R_noise else R_noise in
    Return {| out_X := X; out_W := W; out_Y := Y; out_H := H;
              out_R_noise := R_noise1;
              out_R := if return_noisy_only then None else Some R1 |}))))))).

(** A generator for running [make_imc_data]: every draw is the scale. *)
Definition constant_generator : normal_generator unit :=
  {| normal := fun g s _ _ => Return (fun _ _ => s, g) |}.

(** [s.endswith(suffix)] *)
Definition endswith (s suffix : string) : bool :=
  Nat.leb (String.length suffix) (String.length s)
  && String.eqb
       (substring (String.length s - String.length suffix)
          (String.length suffix) s)
       suffix.

(** What [save] and [load] ask of the file system and of [pickle].
    [pickle_dump st name level obj] stands for
    [with open_(name, "wb+") as f: pickle.dump(obj, f)], where [open_] is the
    builtin [open] when [level] is [None] and [gzip.open] at that
    compression level otherwise; [pickle_load st name gz] stands for
    [with open_(name, "rb") as f: pickle.load(f)], through [gzip.open] when
    [gz] is true. *)
Record filesystem (fs obj : Type) : Type := {
  isdir : fs -> string -> bool;
  makedirs : fs -> string -> outcome fs;
  pickle_dump : fs -> string -> option Z -> obj -> outcome fs;
  pickle_load : fs -> string -> bool -> outcome obj
}.

Arguments isdir {fs obj} _ _ _.
Arguments makedirs {fs obj} _ _ _.
Arguments pickle_dump {fs obj} _ _ _ _ _.
Arguments pickle_load {fs obj} _ _ _ _.

(** [gz is None or (isinstance(gz, int) and 0 <= gz <= 9)], for a [gz] that
    is [None] or an integer. *)
Definition gz_accepted (gz : option Z) : bool :=
  match gz with
  | None => true
  | Some level => Z.leb 0 level && Z.leb level 9
  end.

(** The name [save] writes to; [now] is what [time.strftime] returns. *)
Definition save_filename (path : string) (filename : option string)
    (gz : option Z) (now : string) : string :=
  match filename with
  | None =>
      (path ++ "-" ++ now ++ "."
       ++ match gz with None => "pic" | Some _ => "gz" end)%string
  | Some name =>
      (path ++ name
       ++ match gz with None => ".pic" | Some _ => ".gz" end)%string
  end.

(** [save(obj, path, filename, gz)]: the new state of the file system and
    the value returned, which is the name only when none was given. *)
Definition save {fs obj : Type} (os : filesystem fs obj) (st : fs)
    (o : obj) (path : string) (filename : option string) (gz : option Z)
    (now : string) : outcome (fs * option string) :=
  if negb (gz_accepted gz) then Throw TypeError
  else
    match (if isdir os st path then Return st else makedirs os st path) with
    | Throw e => Throw e
    | Return st1 =>
        let filename_ := save_filename path filename gz now in
        match pickle_dump os st1 filename_ gz o with
        | Throw e => Throw e
        | Return st2 =>
            Return (st2, match filename with
                         | None => Some filename_
                         | Some _ => None
                         end)
        end
    end.

(** [load(filename)] *)
Definition load {fs obj : Type} (os : filesystem fs obj) (st : fs)
    (filename : string) : outcome obj :=
  pickle_load os st filename (endswith filename ".gz").

(** A file system for running [save] and [load]: every directory exists, a
    file remembers how it was written, and reading it through the other
    opener fails. *)
Definition memory_fs (obj : Type) : Type :=
  list (string * (bool * obj)).

Fixpoint memory_find {obj : Type} (st : memory_fs obj) (name : string)
    : option (bool * obj) :=
  match st with
  | [] => None
  | (n, f) :: st' => if String.eqb n name then Some f else memory_find st' name
  end.

Definition memory_os (obj : Type) : filesystem (memory_fs obj) obj :=
  {| isdir := fun _ _ => true;
     makedirs := fun st _ => Return st;
     pickle_dump := fun st name level o =>
       Return ((name, (match level with None => false | Some _ => true end,
                       o)) :: st);
     pickle_load := fun st name gz =>
       match memory_find st name with
       | Some (written_gz, o) =>
           if Bool.eqb written_gz gz then Return o else Throw OSError
       | None => Throw OSError
       end |}.

(** What [mc_split] asks of NumPy's random generator. *)
Record random_state (rng : Type) : Type := {
  permutation : rng -> nat -> list nat * rng
}.

Arguments permutation {rng} _ _ _.

(** The loop of [mc_split]: one pair [(ind_train, ind_test)] per split. *)
Fixpoint mc_split_loop {rng : Type} (rs : random_state rng) (g : rng)
    (n_samples n_train n_test n_splits : nat)
    : list (list nat * list nat) :=
  match n_splits with
  | O => []
  | S n_splits' =>
      let (perm, g') := permutation rs g n_samples in
      let ind_test := firstn n_test perm in
      let ind_train := firstn n_train (skipn n_test perm) in
      (ind_train, ind_test)
        :: mc_split_loop rs g' n_samples n_train n_test n_splits'
  end.

(** [mc_split(R, n_splits, test_size, train_size, random_state)], with the
    pairs it yields collected in a list.  [validate] is scikit-learn's
    [_validate_shuffle_split]. *)
Definition mc_split {rng size : Type}
    (validate : nat -> size -> size -> outcome (nat * nat))
    (rs : random_state rng) (shape : nat * nat) (n_splits : nat)
    (test_size train_size : size) (g : rng)
    : outcome (list (list nat * list nat)) :=
  let n_samples := (fst shape * snd shape)%nat in
  match validate n_samples test_size train_size with
  | Throw e => Throw e
  | Return (n_train, n_test) =>
      Return (mc_split_loop rs g n_samples n_train n_test n_splits)
  end.

(** The grid of [plot_loss]: the assertion on the three lengths, then
    [(n_rows, n_cols)].  [max_cols] is [None] when it is not an [int]. *)
Definition plot_loss_grid (n_plots n_titles n_units : Z)
    (max_cols : option Z) : outcome (Z * Z) :=
  if negb (Z.eqb n_plots n_titles && Z.eqb n_titles n_units)
  then Throw AssertionError
  else
    match max_cols with
    | None => Return (1%Z, n_plots)
    | Some m =>
        let n_cols := Z.min m n_plots in
        if Z.eqb n_cols 0 then Throw ZeroDivisionError
        else Return (((n_plots + n_cols - 1) / n_cols)%Z, n_cols)
    end.

(** The position [i + 1] that [plot_loss] hands to [add_subplot] for each
    of the [n_plots] metrics. *)
Definition plot_loss_positions (n_plots : Z) : list Z :=
  map (fun i => (Z.of_nat i + 1)%Z) (seq 0 (Z.to_nat n_plots)).

End Utils.

(** ** Broadcasting *)

Lemma broadcast_to_same (n : nat) {T : Type} (a : list T) :
  length a = n -> broadcast_to n a = a.
Proof.
  intros <-. unfold broadcast_to. now rewrite Nat.eqb_refl.
Qed.

Lemma broadcast_to_singleton {T : Type} (n : nat) (x : T) :
  broadcast_to n [x] = repeat x n.
Proof.
  destruct n as [| [| n]]; reflexivity.
Qed.

Section Broadcasting.

Context {A B C : Type}.

Lemma broadcast_len_same (n : nat) : broadcast_len n n = Some n.
Proof. unfold broadcast_len. now rewrite Nat.eqb_refl. Qed.

Lemma broadcast_len_clash (n m : nat) :
  n <> m -> n <> 1%nat -> m <> 1%nat -> broadcast_len n m = None.
Proof.
  intros Hnm Hn Hm. unfold broadcast_len.
  apply Nat.eqb_neq in Hnm, Hn, Hm. now rewrite Hnm, Hn, Hm.
Qed.

Lemma broadcast_len_left_one (m : nat) : broadcast_len 1 m = Some m.
Proof.
  unfold broadcast_len. destruct (Nat.eqb_spec 1 m) as [<- | _]; reflexivity.
Qed.

Lemma broadcast_len_right_one (n : nat) : broadcast_len n 1 = Some n.
Proof.
  unfold broadcast_len. destruct (Nat.eqb_spec n 1) as [-> | _];
    [reflexivity | now rewrite Nat.eqb_refl].
Qed.

Lemma zip_with_length (f : A -> B -> C) (a : list A) (b : list B) :
  length a = length b -> length (zip_with f a b) = length a.
Proof.
  revert b. induction a as [| x a IH]; intros [| y b] Hlen;
    simpl in *; try discriminate; auto.
Qed.

Lemma zip_with_nth_error (f : A -> B -> C) (a : list A) (b : list B)
    (i : nat) (x : A) (y : B) :
  nth_error a i = Some x -> nth_error b i = Some y ->
  nth_error (zip_with f a b) i = Some (f x y).
Proof.
  revert b i. induction a as [| x0 a IH]; intros [| y0 b] [| i];
    simpl; try discriminate.
  - now intros [= ->] [= ->].
  - apply IH.
Qed.

Lemma ufunc2_same_len (f : A -> B -> C) (a : list A) (b : list B) :
  length a = length b -> ufunc2 f a b = Ok (zip_with f a b).
Proof.
  intros Hlen. unfold ufunc2.
  rewrite <- Hlen, broadcast_len_same.
  rewrite (broadcast_to_same _ a) by reflexivity.
  now rewrite (broadcast_to_same _ b) by (symmetry; exact Hlen).
Qed.

Lemma ufunc2_clash (f : A -> B -> C) (a : list A) (b : list B) :
  length a <> length b -> length a <> 1%nat -> length b <> 1%nat ->
  ufunc2 f a b = Raise ValueError.
Proof.
  intros Hab Ha Hb. unfold ufunc2.
  now rewrite broadcast_len_clash.
Qed.

Lemma ufunc2_left_one (f : A -> B -> C) (x : A) (b : list B) :
  ufunc2 f [x] b = Ok (map (f x) b).
Proof.
  unfold ufunc2. simpl length. rewrite broadcast_len_left_one.
  rewrite broadcast_to_singleton, broadcast_to_same by reflexivity.
  f_equal. induction b as [| y b IH]; simpl; [reflexivity | now rewrite IH].
Qed.

Lemma ufunc2_right_one (f : A -> B -> C) (a : list A) (y : B) :
  ufunc2 f a [y] = Ok (map (fun x => f x y) a).
Proof.
  unfold ufunc2. simpl length. rewrite broadcast_len_right_one.
  rewrite broadcast_to_singleton, broadcast_to_same by reflexivity.
  f_equal. induction a as [| x a IH]; simpl; [reflexivity | now rewrite IH].
Qed.

Lemma zip_with_map_r {B' : Type} (f : A -> B -> C) (g : B' -> B)
    (a : list A) (b : list B') :
  zip_with f a (map g b) = zip_with (fun x y => f x (g y)) a b.
Proof.
  revert b. induction a as [| x a IH]; intros [| y b]; simpl;
    try reflexivity. now rewrite IH.
Qed.

Lemma map_zip_with {D : Type} (g : C -> D) (f : A -> B -> C)
    (a : list A) (b : list B) :
  map g (zip_with f a b) = zip_with (fun x y => g (f x y)) a b.
Proof.
  revert b. induction a as [| x a IH]; intros [| y b]; simpl;
    try reflexivity. now rewrite IH.
Qed.

Lemma zip_with_diag (f : A -> A -> C) (a : list A) :
  zip_with f a a = map (fun x => f x x) a.
Proof.
  induction a as [| x a IH]; simpl; [reflexivity | now rewrite IH].
Qed.

Lemma zip_with_ext (f g : A -> B -> C) (a : list A) (b : list B) :
  (forall x y, f x y = g x y) -> zip_with f a b = zip_with g a b.
Proof.
  intros Hfg. revert b. induction a as [| x a IH]; intros [| y b]; simpl;
    try reflexivity. now rewrite Hfg, IH.
Qed.

End Broadcasting.

(** [np.where] on a condition and two branches that were all computed from
    one array. *)
Lemma np_where_map {A : Type} (c : A -> bool) (f g : A -> R) (d : list A) :
  np_where (map c d) (map f d) (map g d)
  = Ok (map (fun x => if c x then f x else g x) d).
Proof.
  unfold np_where. rewrite !length_map, !broadcast_len_same.
  rewrite !broadcast_to_same by apply length_map.
  f_equal. induction d as [| x d IH]; simpl; [reflexivity | now rewrite IH].
Qed.

Lemma Rgtb_false (x y : R) : x <= y -> Rgtb x y = false.
Proof. intros Hxy. unfold Rgtb. destruct (Rgt_dec x y); [lra | reflexivity]. Qed.


(** ** The sigmoid *)

Lemma sigmoid_map (x : ndarray) : sigmoid x = Ok (map Spec.sigmoid x).
Proof.
  unfold sigmoid, scalar_rsub, scalar_rdiv, scalar_add, np_exp, np_neg,
    np_abs, np_gt_scalar.
  rewrite !map_map.
  rewrite (np_where_map (fun v => Rgtb v 0)
             (fun v => 1 / (1 + exp (- Rabs v)))
             (fun v => 1 - 1 / (1 + exp (- Rabs v)))).
  f_equal. apply map_ext. intros v.
  unfold Spec.sigmoid, Rgtb. now destruct (Rgt_dec v 0).
Qed.

Lemma exp_opp_inv (x : R) : exp (- x) = / exp x.
Proof. apply exp_Ropp. Qed.

Lemma naive_sigmoid_range (x : R) : 0 < Spec.naive_sigmoid x < 1.
Proof.
  unfold Spec.naive_sigmoid.
  pose proof (exp_pos (- x)) as Hpos.
  assert (Hden : 0 < 1 + exp (- x)) by lra.
  split.
  - apply Rdiv_lt_0_compat; lra.
  - apply (Rmult_lt_reg_r (1 + exp (- x))); [exact Hden |].
    unfold Rdiv. rewrite Rmult_assoc, Rinv_l by lra. lra.
Qed.

Lemma naive_sigmoid_opp (x : R) :
  Spec.naive_sigmoid (- x) = 1 - Spec.naive_sigmoid x.
Proof.
  unfold Spec.naive_sigmoid. rewrite Ropp_involutive, exp_opp_inv.
  pose proof (exp_pos x) as Hpos. field. split; lra.
Qed.

Lemma sigmoid_naive (x : R) : Spec.sigmoid x = Spec.naive_sigmoid x.
Proof.
  unfold Spec.sigmoid. destruct (Rgt_dec x 0) as [Hx | Hx].
  - rewrite Rabs_right by lra. reflexivity.
  - rewrite Rabs_left1 by lra.
    change (1 / (1 + exp (- - x))) with (Spec.naive_sigmoid (- x)).
    rewrite naive_sigmoid_opp. lra.
Qed.

Lemma sigmoid_zero : Spec.sigmoid 0 = 0.5.
Proof.
  rewrite sigmoid_naive. unfold Spec.naive_sigmoid.
  rewrite Ropp_0, exp_0. lra.
Qed.

Lemma naive_sigmoid_half (x : R) :
  (0 < x -> 0.5 <= Spec.naive_sigmoid x)
  /\ (x <= 0 -> Spec.naive_sigmoid x <= 0.5).
Proof.
  assert (Hmono : forall a b, a <= b ->
                    Spec.naive_sigmoid a <= Spec.naive_sigmoid b).
  { intros a b Hab. unfold Spec.naive_sigmoid.
    pose proof (exp_pos (- a)) as Ha. pose proof (exp_pos (- b)) as Hb.
    assert (Hexp : exp (- b) <= exp (- a)).
    { destruct Hab as [Hlt | ->]; [| lra].
      left. apply exp_increasing. lra. }
    unfold Rdiv. rewrite !Rmult_1_l.
    apply Rinv_le_contravar; lra. }
  assert (Hhalf : Spec.naive_sigmoid 0 = 0.5).
  { unfold Spec.naive_sigmoid. rewrite Ropp_0, exp_0. lra. }
  rewrite <- Hhalf. split; intros Hx; apply Hmono; lra.
Qed.



(** ** The L2 family *)

Lemma l2_v_func_same_len (predict target : ndarray) :
  length predict = length target ->
  QAObjectiveL2Loss.v_func predict target
  = Ok (zip_with Spec.l2_value predict target).
Proof.
  intros Hlen. unfold QAObjectiveL2Loss.v_func, np_sub.
  rewrite ufunc2_same_len by exact Hlen. simpl.
  unfold scalar_mul, np_square. now rewrite map_map, map_zip_with.
Qed.

Lemma mean_squared_error_same_len (y_true y_pred : ndarray) :
  length y_true = length y_pred -> y_true <> [] ->
  mean_squared_error y_true y_pred = Ok (Spec.mse y_true y_pred).
Proof.
  intros Hlen Hne. unfold mean_squared_error.
  rewrite Hlen, Nat.eqb_refl. simpl negb. cbv iota.
  destruct y_pred as [| y ys].
  - destruct y_true; [contradiction | discriminate].
  - simpl Nat.eqb. cbv iota. unfold mean, Spec.mse.
    now rewrite zip_with_length, Hlen by exact Hlen.
Qed.

Lemma mean_squared_error_mismatch (y_true y_pred : ndarray) :
  length y_true <> length y_pred ->
  mean_squared_error y_true y_pred = Raise ValueError.
Proof.
  intros Hlen. unfold mean_squared_error.
  apply Nat.eqb_neq in Hlen. now rewrite Hlen.
Qed.

(** C5: for equal-length arrays the L2 family returns [0.5*(p - t)^2] and
    [p - t] element by element, an array of ones as long as the target, and,
    as its score, the mean of the squared differences between target and
    prediction (arrays with at least one sample: the mean of no sample is
    not defined).  On [predict = [1,2,3]], [target = [1,1,1]] these are
    [[0, 0.5, 2]], [[0, 1, 2]], [[1, 1, 1]] and [5/3]. *)
Theorem l2_statistics (predict target : ndarray) :
  length predict = length target ->
  QAObjectiveL2Loss.v_func predict target
    = Ok (zip_with (fun p t => 0.5 * (p - t) ^ 2) predict target)
  /\ QAObjectiveL2Loss.g_func predict target
    = Ok (zip_with (fun p t => p - t) predict target)
  /\ QAObjectiveL2Loss.h_func predict target = Ok (repeat 1 (length target))
  /\ (target <> [] ->
      QAObjectiveL2Loss.score predict target
      = Ok (sum (zip_with (fun t p => (t - p) ^ 2) target predict)
            / INR (length target)))
  /\ QAObjectiveL2Loss.v_func [1; 2; 3] [1; 1; 1] = Ok [0; 0.5; 2]
  /\ QAObjectiveL2Loss.g_func [1; 2; 3] [1; 1; 1] = Ok [0; 1; 2]
  /\ QAObjectiveL2Loss.h_func [1; 2; 3] [1; 1; 1] = Ok [1; 1; 1]
  /\ QAObjectiveL2Loss.score [1; 2; 3] [1; 1; 1] = Ok (5 / 3).
Proof.
  intros Hlen. repeat split.
  - now apply l2_v_func_same_len.
  - unfold QAObjectiveL2Loss.g_func, np_sub. now apply ufunc2_same_len.
  - intros Hne. unfold QAObjectiveL2Loss.score.
    now apply mean_squared_error_same_len.
  - rewrite l2_v_func_same_len by reflexivity. unfold Spec.l2_value. simpl.
    repeat f_equal; lra.
  - unfold QAObjectiveL2Loss.g_func, np_sub.
    rewrite ufunc2_same_len by reflexivity. simpl. repeat f_equal; lra.
  - unfold QAObjectiveL2Loss.score.
    rewrite mean_squared_error_same_len by (reflexivity || discriminate).
    unfold Spec.mse, sum. simpl. f_equal. lra.
Qed.

Lemma l2_statistics_witness :
  QAObjectiveL2Loss.g_func [4; 6] [1; 2]
  = Ok (zip_with (fun p t => p - t) [4; 6] [1; 2]).
Proof.
  exact (proj1 (proj2 (l2_statistics [4; 6] [1; 2] eq_refl))).
Defined.

(** ** The Huber family *)

Section Huber.

Context {Base : Type}.
Variable self : object Base.
Variable eps : R.
Hypothesis self_epsilon : ob_epsilon self = Some eps.

Lemma get_epsilon_self : get_epsilon self = Ok eps.
Proof. unfold get_epsilon. now rewrite self_epsilon. Qed.

Lemma huber_v_func_any (predict target : ndarray) :
  QAObjectiveHuberLoss.v_func self predict target
  = (d <- np_sub predict target ;;
     Ok (map (fun r => if Rgt_dec (Rabs r) eps
                       then eps * (Rabs r - eps / 2)
                       else 0.5 * Rabs r ^ 2) d)).
Proof.
  unfold QAObjectiveHuberLoss.v_func. rewrite get_epsilon_self. simpl.
  destruct (np_sub predict target) as [d | e]; simpl; [| reflexivity].
  unfold scalar_mul, sub_scalar, np_square, np_gt_scalar, np_abs.
  rewrite !map_map.
  rewrite (np_where_map (fun r => Rgtb (Rabs r) eps)
             (fun r => eps * (Rabs r - eps / 2))
             (fun r => 0.5 * Rabs r ^ 2)).
  f_equal. apply map_ext. intros r. unfold Rgtb.
  now destruct (Rgt_dec (Rabs r) eps).
Qed.

Lemma huber_g_func_any (predict target : ndarray) :
  QAObjectiveHuberLoss.g_func self predict target
  = (d <- np_sub predict target ;;
     Ok (map (fun r => if Rgt_dec (Rabs r) eps then eps * sign r else r) d)).
Proof.
  unfold QAObjectiveHuberLoss.g_func. rewrite get_epsilon_self. simpl.
  destruct (np_sub predict target) as [d | e]; simpl; [| reflexivity].
  unfold scalar_mul, np_sign, np_gt_scalar, np_abs.
  rewrite !map_map.
  rewrite <- (map_id d) at 3.
  rewrite (np_where_map (fun r => Rgtb (Rabs r) eps)
             (fun r => eps * sign r) (fun r => r)).
  f_equal. apply map_ext. intros r. unfold Rgtb.
  now destruct (Rgt_dec (Rabs r) eps).
Qed.

Lemma huber_h_func_any (predict target : ndarray) :
  QAObjectiveHuberLoss.h_func self predict target
  = (d <- np_sub predict target ;;
     Ok (map (fun r => if Rle_dec (Rabs r) eps then 1 else 0) d)).
Proof.
  unfold QAObjectiveHuberLoss.h_func. rewrite get_epsilon_self. simpl.
  destruct (np_sub predict target) as [d | e]; simpl; [| reflexivity].
  unfold bool_mul_scalar, np_le_scalar, np_abs.
  rewrite !map_map. f_equal. apply map_ext. intros r.
  unfold Rleb, of_bool. destruct (Rle_dec (Rabs r) eps); lra.
Qed.

Lemma huber_v_func_same_len (predict target : ndarray) :
  length predict = length target ->
  QAObjectiveHuberLoss.v_func self predict target
  = Ok (zip_with (Spec.huber_value eps) predict target).
Proof.
  intros Hlen. rewrite huber_v_func_any. unfold np_sub.
  rewrite ufunc2_same_len by exact Hlen. simpl.
  now rewrite map_zip_with.
Qed.

Lemma huber_g_func_same_len (predict target : ndarray) :
  length predict = length target ->
  QAObjectiveHuberLoss.g_func self predict target
  = Ok (zip_with (Spec.huber_gradient eps) predict target).
Proof.
  intros Hlen. rewrite huber_g_func_any. unfold np_sub.
  rewrite ufunc2_same_len by exact Hlen. simpl.
  now rewrite map_zip_with.
Qed.

Lemma huber_h_func_same_len (predict target : ndarray) :
  length predict = length target ->
  QAObjectiveHuberLoss.h_func self predict target
  = Ok (zip_with (Spec.huber_hessian eps) predict target).
Proof.
  intros Hlen. rewrite huber_h_func_any. unfold np_sub.
  rewrite ufunc2_same_len by exact Hlen. simpl.
  now rewrite map_zip_with.
Qed.

End Huber.

Lemma Rabs_sqr_pow (x : R) : Rabs x ^ 2 = x ^ 2.
Proof. rewrite RPow_abs. apply Rabs_pos_eq. apply pow2_ge_0. Qed.

Lemma sign_abs (x : R) : x <> 0 -> Rabs (sign x) = 1.
Proof.
  intros Hx. unfold sign.
  destruct (Rlt_dec x 0); [| destruct (Rgt_dec x 0)].
  - rewrite Rabs_left by lra. lra.
  - apply Rabs_right. lra.
  - lra.
Qed.

Lemma sign_mul_abs (x : R) : Rabs x * sign x = x.
Proof.
  unfold sign.
  destruct (Rlt_dec x 0); [| destruct (Rgt_dec x 0)].
  - rewrite Rabs_left by lra. lra.
  - rewrite Rabs_right by lra. lra.
  - assert (x = 0) as -> by lra. rewrite Rabs_R0. lra.
Qed.

(** ** Construction *)

Lemma new_HuberLoss_unfold {Base : Type}
    (base_init : init_args -> result Base) (X W Y H R_ : matrix)
    (epsilon : option R) (n_threads : option nat)
    (approx_type : option string) :
  new_HuberLoss base_init X W Y H R_ epsilon n_threads approx_type
  = (b <- base_init (base_args X W Y H R_ n_threads approx_type) ;;
     Ok {| ob_class := HuberLoss;
           ob_base := Some b;
           ob_epsilon := Some (default 1e-2 epsilon) |}).
Proof.
  unfold new_HuberLoss, QAObjectiveHuberLoss.__init__,
    QAObjectiveL2Loss.__init__, base_args. simpl default.
  now destruct (base_init _).
Qed.

(** C1, as the code has it: the constructor of the Huber family does not
    look at [epsilon].  It succeeds exactly when the constructor of the base
    class does, whatever [epsilon] is, and the instance then holds the given
    [epsilon], positive or not. *)
Theorem huber_init_stores_any_epsilon {Base : Type}
    (base_init : init_args -> result Base) (X W Y H R_ : matrix)
    (epsilon : R) (n_threads : option nat) (approx_type : option string) :
  new_HuberLoss base_init X W Y H R_ (Some epsilon) n_threads approx_type
  = (b <- base_init (base_args X W Y H R_ n_threads approx_type) ;;
     Ok {| ob_class := HuberLoss;
           ob_base := Some b;
           ob_epsilon := Some epsilon |})
  /\ is_ok (new_HuberLoss base_init X W Y H R_ (Some epsilon)
              n_threads approx_type)
     = is_ok (base_init (base_args X W Y H R_ n_threads approx_type)).
Proof.
  rewrite new_HuberLoss_unfold. simpl default. split; [reflexivity |].
  now destruct (base_init _).
Qed.

(** C1 fails as stated: with [epsilon = -1] (and with [epsilon = 0]) the
    construction succeeds and the instance holds that threshold. *)
Lemma huber_init_accepts_nonpositive_epsilon :
  -1 <= 0
  /\ new_HuberLoss keep_args [] [] [] [] [] (Some (-1)) None None
     = Ok {| ob_class := HuberLoss;
             ob_base := Some (base_args [] [] [] [] [] None None);
             ob_epsilon := Some (-1) |}
  /\ is_ok (new_HuberLoss keep_args [] [] [] [] [] (Some 0) None None) = true.
Proof.
  split; [lra |]. split; reflexivity.
Qed.

(** C9: an instance of the Huber family constructed without [epsilon] holds
    the threshold [1e-2], and every call of its value, gradient and Hessian
    diagonal on that instance subtracts the target from the prediction and
    applies the Huber formula with the threshold [0.01]. *)
Theorem huber_default_epsilon {Base : Type}
    (base_dict : attr -> option (method Base))
    (base_init : init_args -> result Base) (X W Y H R_ : matrix)
    (n_threads : option nat) (approx_type : option string)
    (self : object Base) :
  new_HuberLoss base_init X W Y H R_ None n_threads approx_type = Ok self ->
  ob_class self = HuberLoss
  /\ ob_epsilon self = Some 0.01
  /\ forall predict target : ndarray,
       call base_dict self a_v_func predict target
       = (d <- np_sub predict target ;;
          Ok (VArray (map (fun r => if Rgt_dec (Rabs r) 0.01
                                    then 0.01 * (Rabs r - 0.01 / 2)
                                    else 0.5 * Rabs r ^ 2) d)))
       /\ call base_dict self a_g_func predict target
          = (d <- np_sub predict target ;;
             Ok (VArray (map (fun r => if Rgt_dec (Rabs r) 0.01
                                       then 0.01 * sign r
                                       else r) d)))
       /\ call base_dict self a_h_func predict target
          = (d <- np_sub predict target ;;
             Ok (VArray (map (fun r => if Rle_dec (Rabs r) 0.01
                                       then 1 else 0) d))).
Proof.
  rewrite new_HuberLoss_unfold. simpl default.
  destruct (base_init _) as [b | e]; simpl; [| discriminate].
  intros [= <-].
  assert (Heps : ob_epsilon {| ob_class := HuberLoss; ob_base := Some b;
                               ob_epsilon := Some 1e-2 |} = Some 0.01).
  { simpl; f_equal; lra. }
  split; [reflexivity |]. split; [exact Heps |].
  intros predict target. unfold call, lookup. simpl. unfold bound_array.
  rewrite (huber_v_func_any _ _ Heps), (huber_g_func_any _ _ Heps),
    (huber_h_func_any _ _ Heps).
  destruct (np_sub predict target); repeat split.
Qed.

Lemma huber_default_epsilon_witness :
  ob_epsilon {| ob_class := HuberLoss;
                ob_base := Some (base_args [] [] [] [] [] None None);
                ob_epsilon := Some 1e-2 |} = Some 0.01.
Proof.
  exact (proj1 (proj2 (huber_default_epsilon (fun _ => None) keep_args
                         [] [] [] [] [] None None _ eq_refl))).
Defined.

(** C8: the score of the Huber family is the score of the L2 family.  The
    class [QAObjectiveHuberLoss] defines its own value, gradient and Hessian
    diagonal but no [score]; the lookup finds the one of
    [QAObjectiveL2Loss], so on every pair of arrays both families return the
    same score, the mean squared error of scikit-learn. *)
Theorem huber_score_is_l2_score {Base : Type}
    (base_dict : attr -> option (method Base))
    (b b' : option Base) (e e' : option R) (predict target : ndarray) :
  lookup base_dict HuberLoss a_score
  = Some (static_float QAObjectiveL2Loss.score)
  /\ lookup base_dict L2Loss a_score
     = Some (static_float QAObjectiveL2Loss.score)
  /\ call base_dict {| ob_class := HuberLoss; ob_base := b; ob_epsilon := e |}
       a_score predict target
     = call base_dict {| ob_class := L2Loss; ob_base := b'; ob_epsilon := e' |}
         a_score predict target
  /\ call base_dict {| ob_class := HuberLoss; ob_base := b; ob_epsilon := e |}
       a_score predict target
     = (r <- mean_squared_error target predict ;; Ok (VFloat r))
  /\ lookup base_dict HuberLoss a_v_func
     = Some (bound_array QAObjectiveHuberLoss.v_func)
  /\ lookup base_dict HuberLoss a_g_func
     = Some (bound_array QAObjectiveHuberLoss.g_func)
  /\ lookup base_dict HuberLoss a_h_func
     = Some (bound_array QAObjectiveHuberLoss.h_func).
Proof.
  repeat split.
Qed.

(** ** The Logistic family *)

Lemma ufunc2_inplace_same_len {A B : Type} (f : A -> B -> A)
    (a : list A) (b : list B) :
  length a = length b -> ufunc2_inplace f a b = Ok (zip_with f a b).
Proof.
  intros Hlen. unfold ufunc2_inplace.
  rewrite <- Hlen, broadcast_len_same, Nat.eqb_refl.
  now rewrite (broadcast_to_same _ b) by (symmetry; exact Hlen).
Qed.

Lemma ufunc2_inplace_clash {A B : Type} (f : A -> B -> A)
    (a : list A) (b : list B) :
  length a <> length b -> length b <> 1%nat ->
  ufunc2_inplace f a b = Raise ValueError.
Proof.
  intros Hab Hb. unfold ufunc2_inplace, broadcast_len.
  apply Nat.eqb_neq in Hab, Hb. rewrite Hab, Hb.
  destruct (Nat.eqb (length a) 1); [| reflexivity].
  now rewrite Nat.eqb_sym, Hab.
Qed.

Lemma log_v_func_same_len (logit target : ndarray) :
  length logit = length target ->
  QAObjectiveLogLoss.v_func logit target
  = Ok (zip_with Spec.log_value logit target).
Proof.
  intros Hlen. unfold QAObjectiveLogLoss.v_func, np_mul.
  rewrite ufunc2_same_len by (symmetry; exact Hlen). simpl.
  unfold np_log1p, np_exp, np_neg, np_abs, np_minimum_scalar.
  rewrite !map_map. rewrite ufunc2_inplace_same_len.
  - f_equal. clear Hlen. revert target.
    induction logit as [| l logit IH]; intros [| t target]; simpl;
      try reflexivity.
    now rewrite IH.
  - rewrite !length_map, zip_with_length; auto.
Qed.

Lemma log_g_func_same_len (logit target : ndarray) :
  length logit = length target ->
  QAObjectiveLogLoss.g_func logit target
  = Ok (zip_with Spec.log_gradient logit target).
Proof.
  intros Hlen. unfold QAObjectiveLogLoss.g_func, np_mul, np_sub.
  rewrite ufunc2_same_len by exact Hlen. simpl.
  rewrite sigmoid_map. simpl.
  assert (Hs : length (map Spec.sigmoid (zip_with Rmult logit target))
               = length target).
  { rewrite length_map, zip_with_length; auto. }
  rewrite ufunc2_same_len by exact Hs. simpl.
  rewrite ufunc2_same_len by (rewrite zip_with_length; auto).
  f_equal. clear Hlen Hs. revert target.
  induction logit as [| l logit IH]; intros [| t target]; simpl;
    try reflexivity.
  now rewrite IH.
Qed.

Lemma log_h_func_any (logit target : ndarray) :
  QAObjectiveLogLoss.h_func logit target
  = Ok (map Spec.log_hessian logit).
Proof.
  unfold QAObjectiveLogLoss.h_func, np_mul, scalar_rsub.
  rewrite sigmoid_map. simpl.
  rewrite ufunc2_same_len by now rewrite !length_map.
  now rewrite zip_with_map_r, zip_with_diag, map_map.
Qed.

(** [ln (1 + exp (-z))] written from the other side of zero. *)
Lemma softplus_opp (z : R) : ln (1 + exp (- z)) = ln (1 + exp z) - z.
Proof.
  pose proof (exp_pos z) as Hz. pose proof (exp_pos (- z)) as Hmz.
  replace (1 + exp (- z)) with ((1 + exp z) * exp (- z)).
  - rewrite ln_mult by lra. rewrite ln_exp. lra.
  - rewrite Rmult_plus_distr_r, <- exp_plus.
    replace (z + - z) with 0 by lra. rewrite exp_0. lra.
Qed.

Lemma stable_log_loss (z : R) :
  log1p (exp (- Rabs z)) - Rmin z 0 = ln (1 + exp (- z)).
Proof.
  unfold log1p. destruct (Rle_dec 0 z) as [Hz | Hz].
  - rewrite Rabs_right, Rmin_right by lra. lra.
  - rewrite Rabs_left, Rmin_left by lra.
    rewrite (softplus_opp z). now rewrite Ropp_involutive.
Qed.

Lemma log_value_is_log_loss (l t : R) :
  t = 1 \/ t = -1 -> Spec.log_value l t = Spec.log_loss l t.
Proof.
  intros Ht. unfold Spec.log_value, Spec.log_loss.
  rewrite <- stable_log_loss.
  replace (Rabs (t * l)) with (Rabs l); [reflexivity |].
  destruct Ht as [-> | ->].
  - now rewrite Rmult_1_l.
  - replace (-1 * l) with (- l) by lra. now rewrite Rabs_Ropp.
Qed.

Lemma zip_with_ext_Forall_r {A B C : Type} (P : B -> Prop)
    (f g : A -> B -> C) (a : list A) (b : list B) :
  (forall x y, P y -> f x y = g x y) ->
  Forall P b -> zip_with f a b = zip_with g a b.
Proof.
  intros Hfg Hb. revert a.
  induction Hb as [| y b Hy Hb IH]; intros [| x a]; simpl; try reflexivity.
  now rewrite Hfg, IH.
Qed.

(** C3: in the Logistic family, for equal-length arrays of logits and
    targets, the gradient is [sigmoid(logit*target)*target - target] element
    by element and the Hessian diagonal is [p*(1-p)] with
    [p = sigmoid(logit)], the sigmoid of the logit alone, whatever the
    target; here [sigmoid] is the function of the source, element by
    element.  On [logit = [0]], [target = [1]] they are [[-0.5]] and
    [[0.25]]. *)
Theorem logistic_gradient_hessian (logit target : ndarray) :
  length logit = length target ->
  (forall x : ndarray, sigmoid x = Ok (map Spec.sigmoid x))
  /\ QAObjectiveLogLoss.g_func logit target
     = Ok (zip_with (fun l t => Spec.sigmoid (l * t) * t - t) logit target)
  /\ QAObjectiveLogLoss.h_func logit target
     = Ok (map (fun l => Spec.sigmoid l * (1 - Spec.sigmoid l)) logit)
  /\ QAObjectiveLogLoss.g_func [0] [1] = Ok [-0.5]
  /\ QAObjectiveLogLoss.h_func [0] [1] = Ok [0.25].
Proof.
  intros Hlen.
  split; [exact sigmoid_map |].
  split; [now apply log_g_func_same_len |].
  split; [apply log_h_func_any |].
  split.
  - rewrite log_g_func_same_len by reflexivity. simpl.
    unfold Spec.log_gradient. rewrite Rmult_0_l, sigmoid_zero.
    f_equal. f_equal. lra.
  - rewrite log_h_func_any. simpl.
    unfold Spec.log_hessian. rewrite sigmoid_zero.
    f_equal. f_equal. lra.
Qed.

Lemma logistic_gradient_hessian_witness :
  QAObjectiveLogLoss.g_func [2; -3] [1; -1]
  = Ok (zip_with (fun l t => Spec.sigmoid (l * t) * t - t) [2; -3] [1; -1]).
Proof.
  exact (proj1 (proj2 (logistic_gradient_hessian [2; -3] [1; -1] eq_refl))).
Defined.

(** C6: in the Logistic family, for equal-length arrays, the value is
    [log1p(exp(-|logit|)) - min(target*logit, 0)] element by element; when
    every target is [+1] or [-1] this is the log-loss
    [log(1 + exp(-target*logit))]; the value of a logit against [+1] is the
    value of the negated logit against [-1]; and the value of [[0]] against
    [[1]] is [[log 2]]. *)
Theorem logistic_value (logit target : ndarray) :
  length logit = length target ->
  QAObjectiveLogLoss.v_func logit target
  = Ok (zip_with (fun l t => log1p (exp (- Rabs l)) - Rmin (t * l) 0)
          logit target)
  /\ (Forall (fun t => t = 1 \/ t = -1) target ->
      QAObjectiveLogLoss.v_func logit target
      = Ok (zip_with (fun l t => ln (1 + exp (- (t * l)))) logit target))
  /\ QAObjectiveLogLoss.v_func logit (repeat 1 (length logit))
     = QAObjectiveLogLoss.v_func (np_neg logit) (repeat (-1) (length logit))
  /\ QAObjectiveLogLoss.v_func [0] [1] = Ok [ln 2].
Proof.
  intros Hlen.
  split; [now apply log_v_func_same_len |].
  split; [| split].
  - intros Hpm. rewrite log_v_func_same_len by exact Hlen. f_equal.
    apply (zip_with_ext_Forall_r (fun t => t = 1 \/ t = -1)); [| exact Hpm].
    intros l t Ht. now apply log_value_is_log_loss.
  - rewrite !log_v_func_same_len
      by (unfold np_neg; now rewrite ?length_map, repeat_length).
    f_equal. unfold np_neg. clear Hlen.
    induction logit as [| l logit IH]; simpl; [reflexivity |].
    rewrite IH. f_equal. unfold Spec.log_value.
    rewrite Rabs_Ropp. f_equal. f_equal. lra.
  - rewrite log_v_func_same_len by reflexivity. simpl.
    unfold Spec.log_value, log1p.
    rewrite Rabs_R0, Ropp_0, exp_0, Rmult_0_r, Rmin_left by lra.
    f_equal. f_equal. replace (1 + 1) with 2 by lra. lra.
Qed.

Lemma logistic_value_witness :
  QAObjectiveLogLoss.v_func [2; -3] [1; -1]
  = Ok (zip_with (fun l t => ln (1 + exp (- (t * l)))) [2; -3] [1; -1]).
Proof.
  apply (proj1 (proj2 (logistic_value [2; -3] [1; -1] eq_refl))).
  apply Forall_cons; [now left |].
  apply Forall_cons; [now right | apply Forall_nil].
Defined.

(** ** Arrays of different lengths *)

Lemma accuracy_score_mismatch (y_true y_pred : ndarray) :
  length y_true <> length y_pred ->
  accuracy_score y_true y_pred = Raise ValueError.
Proof.
  intros Hlen. unfold accuracy_score.
  apply Nat.eqb_neq in Hlen. now rewrite Hlen.
Qed.

(** C2 fails as stated: a prediction of length one against a target of
    length three is broadcast by the L2 value, and the Hessian diagonals of
    the L2 and Logistic families return although the lengths differ and
    neither is one. *)
Lemma length_mismatch_not_refused :
  length [1] <> length [1; 2; 3]
  /\ QAObjectiveL2Loss.v_func [1] [1; 2; 3] = Ok [0; 0.5; 2]
  /\ length [1; 2] <> length [1; 1; 1]
  /\ QAObjectiveL2Loss.h_func [1; 2] [1; 1; 1] = Ok [1; 1; 1]
  /\ QAObjectiveLogLoss.h_func [0; 0] [1; 1; 1] = Ok [0.25; 0.25].
Proof.
  split; [discriminate |]. split; [| split; [discriminate | split]].
  - unfold QAObjectiveL2Loss.v_func, np_sub. rewrite ufunc2_left_one.
    simpl. repeat f_equal; lra.
  - reflexivity.
  - rewrite log_h_func_any. simpl. unfold Spec.log_hessian.
    rewrite sigmoid_zero. repeat f_equal; lra.
Qed.

(** C2, as the code has it.  No function compares the two lengths itself;
    what happens is what NumPy and scikit-learn do.  When the lengths of
    prediction and target differ, every score raises [ValueError]; when
    moreover neither length is one, the value and the gradient of every
    family and the Hessian diagonal of the Huber family raise [ValueError].
    An array of length one is broadcast against the other (shown for the
    L2 value and gradient), except that the Logistic value raises when the
    logit array is the one of length one.  The Hessian diagonal of the L2
    family is the array of ones of the target's length, and that of the
    Logistic family is computed from the logits alone, for arrays of any
    lengths. *)
Theorem length_mismatch_behaviour {Base : Type}
    (base_dict : attr -> option (method Base)) (self : object Base)
    (eps : R) (predict target : ndarray) :
  ob_class self = HuberLoss ->
  ob_epsilon self = Some eps ->
  length predict <> length target ->
  QAObjectiveL2Loss.score predict target = Raise ValueError
  /\ call base_dict self a_score predict target = Raise ValueError
  /\ QAObjectiveLogLoss.score predict target = Raise ValueError
  /\ (length predict <> 1%nat -> length target <> 1%nat ->
      QAObjectiveL2Loss.v_func predict target = Raise ValueError
      /\ QAObjectiveL2Loss.g_func predict target = Raise ValueError
      /\ QAObjectiveHuberLoss.v_func self predict target = Raise ValueError
      /\ QAObjectiveHuberLoss.g_func self predict target = Raise ValueError
      /\ QAObjectiveHuberLoss.h_func self predict target = Raise ValueError
      /\ QAObjectiveLogLoss.v_func predict target = Raise ValueError
      /\ QAObjectiveLogLoss.g_func predict target = Raise ValueError)
  /\ (forall p : R, predict = [p] ->
      QAObjectiveL2Loss.v_func predict target
      = Ok (map (fun t => 0.5 * (p - t) ^ 2) target)
      /\ QAObjectiveL2Loss.g_func predict target
         = Ok (map (fun t => p - t) target)
      /\ QAObjectiveLogLoss.v_func predict target = Raise ValueError)
  /\ (forall t : R, target = [t] ->
      QAObjectiveL2Loss.v_func predict target
      = Ok (map (fun p => 0.5 * (p - t) ^ 2) predict)
      /\ QAObjectiveL2Loss.g_func predict target
         = Ok (map (fun p => p - t) predict))
  /\ QAObjectiveL2Loss.h_func predict target = Ok (repeat 1 (length target))
  /\ QAObjectiveLogLoss.h_func predict target
     = Ok (map (fun l => Spec.sigmoid l * (1 - Spec.sigmoid l)) predict).
Proof.
  intros Hcls Heps Hlen.
  assert (Hmse : mean_squared_error target predict = Raise ValueError).
  { apply mean_squared_error_mismatch. auto. }
  split; [exact Hmse |].
  split.
  { unfold call, lookup. rewrite Hcls. simpl. unfold static_float.
    unfold QAObjectiveL2Loss.score. now rewrite Hmse. }
  split.
  { unfold QAObjectiveLogLoss.score. rewrite accuracy_score_mismatch.
    - reflexivity.
    - unfold sub_scalar, scalar_mul, np_gt_scalar.
      rewrite !length_map. auto. }
  split.
  { intros Hp Ht.
    assert (Hsub : np_sub predict target = Raise ValueError).
    { unfold np_sub. now apply ufunc2_clash. }
    unfold QAObjectiveL2Loss.v_func, QAObjectiveL2Loss.g_func,
      QAObjectiveHuberLoss.v_func, QAObjectiveHuberLoss.g_func,
      QAObjectiveHuberLoss.h_func, QAObjectiveLogLoss.v_func,
      QAObjectiveLogLoss.g_func, np_mul.
    rewrite (get_epsilon_self _ _ Heps), Hsub.
    rewrite !ufunc2_clash by auto.
    repeat split. }
  split.
  { intros p ->. simpl in Hlen.
    unfold QAObjectiveL2Loss.v_func, QAObjectiveL2Loss.g_func,
      QAObjectiveLogLoss.v_func, np_sub, np_mul.
    rewrite ufunc2_left_one, ufunc2_right_one. simpl.
    split; [| split; [reflexivity |]].
    - unfold scalar_mul, np_square. now rewrite !map_map.
    - apply ufunc2_inplace_clash.
      + unfold np_minimum_scalar. now rewrite !length_map.
      + unfold np_minimum_scalar. rewrite !length_map. auto. }
  split.
  { intros t ->.
    unfold QAObjectiveL2Loss.v_func, QAObjectiveL2Loss.g_func, np_sub.
    rewrite ufunc2_right_one. simpl.
    split; [| reflexivity].
    unfold scalar_mul, np_square. now rewrite !map_map. }
  split; [reflexivity | apply log_h_func_any].
Qed.

Lemma length_mismatch_behaviour_witness :
  QAObjectiveHuberLoss.g_func
    (set_epsilon (new (Base := unit) HuberLoss) 1) [0; 3] [0; 0; 0]
  = Raise ValueError.
Proof.
  refine (proj1 (proj2 (proj2 (proj2
    (proj1 (proj2 (proj2 (proj2
       (length_mismatch_behaviour (fun _ => None)
          (set_epsilon (new (Base := unit) HuberLoss) 1) 1
          [0; 3] [0; 0; 0] eq_refl eq_refl _)))) _ _))))); discriminate.
Defined.

(** ** A run of the Huber family

    With [epsilon = 1], [predict = [0, 3]] and [target = [0, 0]]: the first
    position is in the quadratic region, the second in the linear one. *)
Example huber_scenario :
  let self := set_epsilon (new (Base := unit) HuberLoss) 1 in
  QAObjectiveHuberLoss.v_func self [0; 3] [0; 0] = Ok [0; 2.5]
  /\ QAObjectiveHuberLoss.g_func self [0; 3] [0; 0] = Ok [0; 1]
  /\ QAObjectiveHuberLoss.h_func self [0; 3] [0; 0] = Ok [1; 0].
Proof.
  intros self.
  assert (Heps : ob_epsilon self = Some 1) by reflexivity.
  rewrite (huber_v_func_same_len _ _ Heps), (huber_g_func_same_len _ _ Heps),
    (huber_h_func_same_len _ _ Heps) by reflexivity.
  simpl.
  unfold Spec.huber_value, Spec.huber_gradient, Spec.huber_hessian,
    Spec.huber_linear, Spec.huber_quadratic, sign.
  replace (0 - 0) with 0 by lra. replace (3 - 0) with 3 by lra.
  rewrite Rabs_R0, (Rabs_right 3) by lra.
  destruct (Rgt_dec 0 1), (Rgt_dec 3 1), (Rle_dec 0 1), (Rle_dec 3 1),
    (Rlt_dec 3 0), (Rgt_dec 3 0); try lra.
  repeat split; repeat f_equal; lra.
Qed.

(** * Further properties of the loss families *)

Ltac case_reals :=
  repeat match goal with
         | |- context [Rcase_abs ?a] => destruct (Rcase_abs a)
         | |- context [Rgt_dec ?a ?b] => destruct (Rgt_dec a b)
         | |- context [Rlt_dec ?a ?b] => destruct (Rlt_dec a b)
         | |- context [Rle_dec ?a ?b] => destruct (Rle_dec a b)
         | _ : context [Rcase_abs ?a] |- _ => destruct (Rcase_abs a)
         | _ : context [Rle_dec ?a ?b] |- _ => destruct (Rle_dec a b)
         end.

Lemma zip_with_Forall {A B C : Type} (P : C -> Prop) (f : A -> B -> C)
    (a : list A) (b : list B) :
  (forall x y, P (f x y)) -> Forall P (zip_with f a b).
Proof.
  intros Hf. revert b.
  induction a as [| x a IH]; intros [| y b]; simpl; constructor; auto.
Qed.

Lemma huber_gradient_clip (eps p t : R) :
  0 <= eps ->
  Spec.huber_gradient eps p t = Rmax (- eps) (Rmin eps (p - t)).
Proof.
  intros Heps. unfold Spec.huber_gradient, sign, Rmax, Rmin, Rabs.
  case_reals; lra.
Qed.

(** The gradient of the Huber family is the residual clipped to
    [[-epsilon, epsilon]]: on equal-length arrays, with [epsilon >= 0],
    every entry is [max(-epsilon, min(epsilon, predict - target))], so no
    entry exceeds [epsilon] in magnitude. *)
Theorem huber_gradient_is_clipped_residual {Base : Type}
    (self : object Base) (eps : R) (predict target : ndarray) :
  ob_epsilon self = Some eps ->
  0 <= eps ->
  length predict = length target ->
  exists g : ndarray,
    QAObjectiveHuberLoss.g_func self predict target = Ok g
    /\ g = zip_with (fun p t => Rmax (- eps) (Rmin eps (p - t)))
             predict target
    /\ Forall (fun y => Rabs y <= eps) g.
Proof.
  intros Hself Heps Hlen.
  exists (zip_with (fun p t => Rmax (- eps) (Rmin eps (p - t)))
            predict target).
  split; [| split; [reflexivity |]].
  - rewrite (huber_g_func_same_len _ _ Hself) by exact Hlen. f_equal.
    apply zip_with_ext. intros p t. now apply huber_gradient_clip.
  - apply zip_with_Forall. intros p t.
    unfold Rmax, Rmin, Rabs. case_reals; lra.
Qed.

Lemma huber_gradient_is_clipped_residual_witness :
  exists g : ndarray,
    QAObjectiveHuberLoss.g_func
      (set_epsilon (new (Base := unit) HuberLoss) 1) [0; 3; -5] [0; 0; 0]
    = Ok g
    /\ g = zip_with (fun p t => Rmax (- 1) (Rmin 1 (p - t)))
             [0; 3; -5] [0; 0; 0]
    /\ Forall (fun y => Rabs y <= 1) g.
Proof.
  apply (huber_gradient_is_clipped_residual
           (set_epsilon (new (Base := unit) HuberLoss) 1) 1
           [0; 3; -5] [0; 0; 0]).
  - reflexivity.
  - lra.
  - reflexivity.
Defined.

Lemma zip_with_Forall2 {A B C D : Type} (P : C -> D -> Prop)
    (f : A -> B -> C) (g : A -> B -> D) (a : list A) (b : list B) :
  (forall x y, P (f x y) (g x y)) ->
  Forall2 P (zip_with f a b) (zip_with g a b).
Proof.
  intros Hfg. revert b.
  induction a as [| x a IH]; intros [| y b]; simpl; constructor; auto.
Qed.

Lemma zip_with_ext_Forall2 {A B C : Type} (P : A -> B -> Prop)
    (f g : A -> B -> C) (a : list A) (b : list B) :
  (forall x y, P x y -> f x y = g x y) ->
  Forall2 P a b -> zip_with f a b = zip_with g a b.
Proof.
  intros Hfg Hab. induction Hab as [| x y a b Hxy Hab IH]; simpl;
    [reflexivity | now rewrite Hfg, IH].
Qed.

Lemma Forall2_same_length {A B : Type} (P : A -> B -> Prop)
    (a : list A) (b : list B) :
  Forall2 P a b -> length a = length b.
Proof. induction 1; simpl; auto. Qed.

Lemma huber_value_bounds (eps p t : R) :
  0 <= eps ->
  0 <= Spec.huber_value eps p t <= Spec.l2_value p t.
Proof.
  intros Heps.
  unfold Spec.huber_value, Spec.huber_linear, Spec.huber_quadratic,
    Spec.l2_value.
  rewrite Rabs_sqr_pow.
  pose proof (Rabs_pos (p - t)) as Hpos.
  pose proof (Rabs_sqr_pow (p - t)) as Hsq.
  destruct (Rgt_dec (Rabs (p - t)) eps) as [Hgt | Hle]; split; try nra.
Qed.

(** The value of the Huber family never leaves the band between zero and
    the value of the L2 family: on equal-length arrays, with
    [epsilon >= 0], each entry [v] of the Huber value and the entry [l] of
    the L2 value at the same position satisfy [0 <= v <= l]. *)
Theorem huber_value_between_zero_and_l2 {Base : Type}
    (self : object Base) (eps : R) (predict target : ndarray) :
  ob_epsilon self = Some eps ->
  0 <= eps ->
  length predict = length target ->
  exists v l2v : ndarray,
    QAObjectiveHuberLoss.v_func self predict target = Ok v
    /\ QAObjectiveL2Loss.v_func predict target = Ok l2v
    /\ length v = length predict
    /\ Forall2 (fun vi li => 0 <= vi <= li) v l2v.
Proof.
  intros Hself Heps Hlen.
  exists (zip_with (Spec.huber_value eps) predict target),
         (zip_with Spec.l2_value predict target).
  split; [now apply huber_v_func_same_len |].
  split; [now apply l2_v_func_same_len |].
  split; [now apply zip_with_length |].
  apply zip_with_Forall2. intros p t. now apply huber_value_bounds.
Qed.

Lemma huber_value_between_zero_and_l2_witness :
  exists v l2v : ndarray,
    QAObjectiveHuberLoss.v_func
      (set_epsilon (new (Base := unit) HuberLoss) 1) [0; 3] [0; 0] = Ok v
    /\ QAObjectiveL2Loss.v_func [0; 3] [0; 0] = Ok l2v
    /\ length v = length [0; 3]
    /\ Forall2 (fun vi li => 0 <= vi <= li) v l2v.
Proof.
  apply (huber_value_between_zero_and_l2
           (set_epsilon (new (Base := unit) HuberLoss) 1) 1 [0; 3] [0; 0]).
  - reflexivity.
  - lra.
  - reflexivity.
Defined.

(** When no residual exceeds [epsilon] in magnitude, the Huber family is
    the L2 family: value, gradient and Hessian diagonal are the arrays the
    L2 family returns. *)
Theorem huber_is_l2_within_threshold {Base : Type}
    (self : object Base) (eps : R) (predict target : ndarray) :
  ob_epsilon self = Some eps ->
  Forall2 (fun p t => Rabs (p - t) <= eps) predict target ->
  QAObjectiveHuberLoss.v_func self predict target
  = QAObjectiveL2Loss.v_func predict target
  /\ QAObjectiveHuberLoss.g_func self predict target
     = QAObjectiveL2Loss.g_func predict target
  /\ QAObjectiveHuberLoss.h_func self predict target
     = QAObjectiveL2Loss.h_func predict target.
Proof.
  intros Hself Hres.
  pose proof (Forall2_same_length _ _ _ Hres) as Hlen.
  rewrite (huber_v_func_same_len _ _ Hself), (huber_g_func_same_len _ _ Hself),
    (huber_h_func_same_len _ _ Hself), l2_v_func_same_len by exact Hlen.
  unfold QAObjectiveL2Loss.g_func, QAObjectiveL2Loss.h_func, np_sub, np_ones.
  rewrite ufunc2_same_len by exact Hlen.
  repeat split; f_equal.
  - apply (zip_with_ext_Forall2 (fun p t => Rabs (p - t) <= eps));
      [| exact Hres].
    intros p t H.
    unfold Spec.huber_value, Spec.huber_quadratic, Spec.l2_value.
    destruct (Rgt_dec (Rabs (p - t)) eps); [lra | now rewrite Rabs_sqr_pow].
  - apply (zip_with_ext_Forall2 (fun p t => Rabs (p - t) <= eps));
      [| exact Hres].
    intros p t H. unfold Spec.huber_gradient.
    destruct (Rgt_dec (Rabs (p - t)) eps); [lra | reflexivity].
  - clear Hlen. induction Hres as [| p t ps ts Hpt Hres IH]; simpl;
      [reflexivity |].
    rewrite IH. f_equal. unfold Spec.huber_hessian.
    destruct (Rle_dec (Rabs (p - t)) eps); [reflexivity | contradiction].
Qed.

Lemma huber_is_l2_within_threshold_witness :
  QAObjectiveHuberLoss.v_func
    (set_epsilon (new (Base := unit) HuberLoss) 2) [1; 0] [0; 2]
  = QAObjectiveL2Loss.v_func [1; 0] [0; 2].
Proof.
  refine (proj1 (huber_is_l2_within_threshold
                   (set_epsilon (new (Base := unit) HuberLoss) 2) 2
                   [1; 0] [0; 2] eq_refl _)).
  apply Forall2_cons; [unfold Rabs; case_reals; lra |].
  apply Forall2_cons; [unfold Rabs; case_reals; lra | apply Forall2_nil].
Defined.

(** With [epsilon = 0], which the constructor accepts, the Huber family
    carries no signal: on equal-length arrays the value and the gradient
    are zero at every position, whatever the residuals. *)
Theorem huber_zero_epsilon_is_flat {Base : Type}
    (self : object Base) (predict target : ndarray) :
  ob_epsilon self = Some 0 ->
  length predict = length target ->
  QAObjectiveHuberLoss.v_func self predict target
  = Ok (repeat 0 (length predict))
  /\ QAObjectiveHuberLoss.g_func self predict target
     = Ok (repeat 0 (length predict)).
Proof.
  intros Hself Hlen.
  rewrite (huber_v_func_same_len _ _ Hself), (huber_g_func_same_len _ _ Hself)
    by exact Hlen.
  split; f_equal; revert target Hlen;
    induction predict as [| p predict IH]; intros [| t target] Hlen;
    simpl in *; try discriminate; try reflexivity;
    (rewrite IH by (now injection Hlen)); f_equal.
  - unfold Spec.huber_value, Spec.huber_linear, Spec.huber_quadratic.
    destruct (Rgt_dec (Rabs (p - t)) 0) as [Hgt | Hle]; [lra |].
    pose proof (Rabs_pos (p - t)).
    replace (Rabs (p - t)) with 0 by lra. lra.
  - unfold Spec.huber_gradient.
    destruct (Rgt_dec (Rabs (p - t)) 0) as [Hgt | Hle]; [lra |].
    pose proof (Rabs_pos (p - t)).
    destruct (Req_dec (p - t) 0) as [H0 | H0]; [exact H0 |].
    apply Rabs_pos_lt in H0. lra.
Qed.

Lemma huber_zero_epsilon_is_flat_witness :
  QAObjectiveHuberLoss.g_func
    (set_epsilon (new (Base := unit) HuberLoss) 0) [7; -2] [1; 1]
  = Ok (repeat 0 (length [7; -2])).
Proof.
  exact (proj2 (huber_zero_epsilon_is_flat
                  (set_epsilon (new (Base := unit) HuberLoss) 0)
                  [7; -2] [1; 1] eq_refl eq_refl)).
Defined.

(** With a negative [epsilon], which the constructor accepts, every
    position is in the linear regime: on equal-length arrays the gradient
    is [epsilon * sign(predict - target)], which points against the
    residual, every value is negative, and the Hessian diagonal is zero
    everywhere. *)
Theorem huber_negative_epsilon_reverses {Base : Type}
    (self : object Base) (eps : R) (predict target : ndarray) :
  ob_epsilon self = Some eps ->
  eps < 0 ->
  length predict = length target ->
  exists v : ndarray,
    QAObjectiveHuberLoss.v_func self predict target = Ok v
    /\ length v = length predict
    /\ Forall (fun y => y < 0) v
    /\ QAObjectiveHuberLoss.g_func self predict target
       = Ok (zip_with (fun p t => eps * sign (p - t)) predict target)
    /\ QAObjectiveHuberLoss.h_func self predict target
       = Ok (zip_with (fun _ _ => 0) predict target).
Proof.
  intros Hself Heps Hlen.
  exists (zip_with (Spec.huber_value eps) predict target).
  rewrite (huber_g_func_same_len _ _ Hself), (huber_h_func_same_len _ _ Hself)
    by exact Hlen.
  split; [now apply huber_v_func_same_len |].
  split; [now apply zip_with_length |].
  split; [| split; f_equal; apply zip_with_ext; intros p t].
  - apply zip_with_Forall. intros p t.
    unfold Spec.huber_value, Spec.huber_linear.
    pose proof (Rabs_pos (p - t)).
    destruct (Rgt_dec (Rabs (p - t)) eps); [nra | lra].
  - unfold Spec.huber_gradient. pose proof (Rabs_pos (p - t)).
    destruct (Rgt_dec (Rabs (p - t)) eps); [reflexivity | lra].
  - unfold Spec.huber_hessian. pose proof (Rabs_pos (p - t)).
    destruct (Rle_dec (Rabs (p - t)) eps); [lra | reflexivity].
Qed.

Lemma huber_negative_epsilon_reverses_witness :
  exists v : ndarray,
    QAObjectiveHuberLoss.v_func
      (set_epsilon (new (Base := unit) HuberLoss) (-1)) [2; 0] [0; 0] = Ok v
    /\ length v = length [2; 0]
    /\ Forall (fun y => y < 0) v
    /\ QAObjectiveHuberLoss.g_func
         (set_epsilon (new (Base := unit) HuberLoss) (-1)) [2; 0] [0; 0]
       = Ok (zip_with (fun p t => -1 * sign (p - t)) [2; 0] [0; 0])
    /\ QAObjectiveHuberLoss.h_func
         (set_epsilon (new (Base := unit) HuberLoss) (-1)) [2; 0] [0; 0]
       = Ok (zip_with (fun _ _ => 0) [2; 0] [0; 0]).
Proof.
  apply (huber_negative_epsilon_reverses
           (set_epsilon (new (Base := unit) HuberLoss) (-1)) (-1)
           [2; 0] [0; 0]).
  - reflexivity.
  - lra.
  - reflexivity.
Defined.

(** ** Value, gradient and Hessian diagonal as derivatives *)

Lemma derivable_pt_lim_of_square_bound (f : R -> R) (x l : R) :
  (forall h, Rabs (f (x + h) - f x - l * h) <= h * h) ->
  derivable_pt_lim f x l.
Proof.
  intros Hb eps Heps. exists (mkposreal eps Heps). intros h Hh Hlt.
  simpl in Hlt.
  replace ((f (x + h) - f x) / h - l) with ((f (x + h) - f x - l * h) / h)
    by (field; exact Hh).
  unfold Rdiv. rewrite Rabs_mult, Rabs_inv.
  pose proof (Rabs_pos_lt h Hh) as Hpos.
  apply Rle_lt_trans with (Rabs h); [| exact Hlt].
  apply (Rmult_le_reg_r (Rabs h)); [exact Hpos |].
  rewrite Rmult_assoc, Rinv_l, Rmult_1_r by lra.
  pose proof (Rabs_sqr_pow h) as Hsq. simpl in Hsq.
  specialize (Hb h). lra.
Qed.

Lemma l2_value_square_bound (p t h : R) :
  Rabs (Spec.l2_value (p + h) t - Spec.l2_value p t - (p - t) * h) <= h * h.
Proof.
  unfold Spec.l2_value.
  replace (0.5 * (p + h - t) ^ 2 - 0.5 * (p - t) ^ 2 - (p - t) * h)
    with (0.5 * (h * h)) by (simpl; lra).
  rewrite Rabs_right; nra.
Qed.

(** In the L2 family the three statistics fit together: seen as a function
    of one prediction, the value has the gradient as its derivative, and
    the gradient has the Hessian diagonal as its derivative. *)
Theorem l2_gradient_and_hessian_are_derivatives (p t : R) :
  derivable_pt_lim (fun x => item (QAObjectiveL2Loss.v_func [x] [t])) p
    (item (QAObjectiveL2Loss.g_func [p] [t]))
  /\ derivable_pt_lim (fun x => item (QAObjectiveL2Loss.g_func [x] [t])) p
       (item (QAObjectiveL2Loss.h_func [p] [t])).
Proof.
  split.
  - change (derivable_pt_lim (fun x => Spec.l2_value x t) p (p - t)).
    apply derivable_pt_lim_of_square_bound. intros h.
    apply l2_value_square_bound.
  - change (derivable_pt_lim (fun x => x - t) p 1).
    apply derivable_pt_lim_of_square_bound. intros h.
    replace (p + h - t - (p - t) - 1 * h) with 0 by lra.
    rewrite Rabs_R0. nra.
Qed.

Lemma huber_value_square_bound (eps p t h : R) :
  0 < eps ->
  Rabs (Spec.huber_value eps (p + h) t - Spec.huber_value eps p t
        - Spec.huber_gradient eps p t * h) <= h * h.
Proof.
  intros Heps.
  unfold Spec.huber_value, Spec.huber_gradient, Spec.huber_linear,
    Spec.huber_quadratic, sign.
  replace (p + h - t) with ((p - t) + h) by lra.
  generalize (p - t). intros r. simpl pow.
  unfold Rabs. case_reals; try lra; try nra.
Qed.

Lemma huber_gradient_locally_affine (eps p t h : R) :
  0 < eps ->
  Rabs (p - t) <> eps ->
  Rabs h < Rabs (eps - Rabs (p - t)) ->
  Spec.huber_gradient eps (p + h) t - Spec.huber_gradient eps p t
  = Spec.huber_hessian eps p t * h.
Proof.
  intros Heps Hne.
  unfold Spec.huber_gradient, Spec.huber_hessian, sign.
  replace (p + h - t) with ((p - t) + h) by lra.
  revert Hne. generalize (p - t). intros r Hne Hh.
  unfold Rabs in *. case_reals; try lra.
Qed.

(** In the Huber family with [epsilon > 0] the gradient is the derivative
    of the value at every prediction, the threshold included; and the
    Hessian diagonal is the derivative of the gradient wherever the
    residual is not exactly at the threshold. *)
Theorem huber_gradient_and_hessian_are_derivatives {Base : Type}
    (self : object Base) (eps p t : R) :
  ob_epsilon self = Some eps ->
  0 < eps ->
  derivable_pt_lim
    (fun x => item (QAObjectiveHuberLoss.v_func self [x] [t])) p
    (item (QAObjectiveHuberLoss.g_func self [p] [t]))
  /\ (Rabs (p - t) <> eps ->
      derivable_pt_lim
        (fun x => item (QAObjectiveHuberLoss.g_func self [x] [t])) p
        (item (QAObjectiveHuberLoss.h_func self [p] [t]))).
Proof.
  intros Hself Heps. split.
  - apply derivable_pt_lim_ext with (f := fun x => Spec.huber_value eps x t).
    + intros z.
      now rewrite (huber_v_func_same_len _ _ Hself) by reflexivity.
    + rewrite (huber_g_func_same_len _ _ Hself) by reflexivity. simpl.
      apply derivable_pt_lim_of_square_bound. intros h.
      now apply huber_value_square_bound.
  - intros Hne.
    apply derivable_pt_lim_ext
      with (f := fun x => Spec.huber_gradient eps x t).
    + intros z.
      now rewrite (huber_g_func_same_len _ _ Hself) by reflexivity.
    + rewrite (huber_h_func_same_len _ _ Hself) by reflexivity. simpl.
      assert (Hgap : 0 < Rabs (eps - Rabs (p - t))).
      { apply Rabs_pos_lt. lra. }
      intros e He. exists (mkposreal _ Hgap). intros h Hh Hlt. simpl in Hlt.
      rewrite huber_gradient_locally_affine by assumption.
      replace (Spec.huber_hessian eps p t * h / h
               - Spec.huber_hessian eps p t) with 0 by (field; exact Hh).
      now rewrite Rabs_R0.
Qed.

Lemma huber_gradient_and_hessian_are_derivatives_witness :
  derivable_pt_lim
    (fun x => item (QAObjectiveHuberLoss.v_func
                      (set_epsilon (new (Base := unit) HuberLoss) 1)
                      [x] [0])) 1
    (item (QAObjectiveHuberLoss.g_func
             (set_epsilon (new (Base := unit) HuberLoss) 1) [1] [0])).
Proof.
  refine (proj1 (huber_gradient_and_hessian_are_derivatives
                   (set_epsilon (new (Base := unit) HuberLoss) 1) 1 1 0
                   eq_refl _)).
  lra.
Defined.
Lemma exp_affine_derivative (t p : R) :
  derivable_pt_lim (fun x => 1 + exp (- (t * x))) p (- t * exp (- (t * p))).
Proof.
  assert (Hin : derivable_pt_lim (fun x => - (t * x)) p (- t)).
  { apply derivable_pt_lim_of_square_bound. intros h.
    replace (- (t * (p + h)) - - (t * p) - - t * h) with 0 by lra.
    rewrite Rabs_R0. nra. }
  pose proof (derivable_pt_lim_comp _ exp p _ _ Hin
                (derivable_pt_lim_exp (- (t * p)))) as Hexp.
  pose proof (derivable_pt_lim_plus _ _ p _ _
                (derivable_pt_lim_const 1 p) Hexp) as Hsum.
  replace (- t * exp (- (t * p))) with (0 + exp (- (t * p)) * - t) by lra.
  exact Hsum.
Qed.

Lemma log_loss_derivative (t p : R) :
  derivable_pt_lim (fun x => Spec.log_loss x t) p
    (/ (1 + exp (- (t * p))) * (- t * exp (- (t * p)))).
Proof.
  pose proof (exp_pos (- (t * p))) as Hpos.
  exact (derivable_pt_lim_comp (fun x => 1 + exp (- (t * x))) ln p _ _
           (exp_affine_derivative t p)
           (derivable_pt_lim_ln (1 + exp (- (t * p))) ltac:(lra))).
Qed.

Lemma log_gradient_closed_form (t p : R) :
  Spec.log_gradient p t = t * (1 / (1 + exp (- (t * p)))) - t.
Proof.
  unfold Spec.log_gradient. rewrite sigmoid_naive. unfold Spec.naive_sigmoid.
  replace (p * t) with (t * p) by lra. lra.
Qed.

Lemma log_gradient_derivative (t p : R) :
  derivable_pt_lim (fun x => Spec.log_gradient x t) p
    (t * (t * exp (- (t * p)) / Rsqr (1 + exp (- (t * p))))).
Proof.
  pose proof (exp_pos (- (t * p))) as Hpos.
  apply derivable_pt_lim_ext
    with (f := fun x => t * (1 / (1 + exp (- (t * x)))) - t).
  { intros z. symmetry. apply log_gradient_closed_form. }
  pose proof (derivable_pt_lim_div (fct_cte 1)
                (fun x => 1 + exp (- (t * x))) p _ _
                (derivable_pt_lim_const 1 p) (exp_affine_derivative t p)
                ltac:(lra)) as Hdiv.
  pose proof (derivable_pt_lim_scal _ t p _ Hdiv) as Hscal.
  pose proof (derivable_pt_lim_minus _ _ p _ _ Hscal
                (derivable_pt_lim_const t p)) as Hmin.
  unfold fct_cte in Hmin.
  replace (t * (t * exp (- (t * p)) / Rsqr (1 + exp (- (t * p)))))
    with (t * ((0 * (1 + exp (- (t * p))) - - t * exp (- (t * p)) * 1)
               / Rsqr (1 + exp (- (t * p)))) - 0).
  - exact Hmin.
  - unfold Rsqr. field. lra.
Qed.

Lemma log_hessian_even (x : R) : Spec.log_hessian (- x) = Spec.log_hessian x.
Proof.
  unfold Spec.log_hessian. rewrite !sigmoid_naive, naive_sigmoid_opp. lra.
Qed.

Lemma log_hessian_closed_form (x : R) :
  Spec.log_hessian x = exp (- x) / Rsqr (1 + exp (- x)).
Proof.
  unfold Spec.log_hessian. rewrite sigmoid_naive. unfold Spec.naive_sigmoid.
  pose proof (exp_pos (- x)) as Hpos. unfold Rsqr. field. lra.
Qed.

Lemma log_hessian_of_product (l t : R) :
  t = 1 \/ t = -1 -> Spec.log_hessian (l * t) = Spec.log_hessian l.
Proof.
  intros [-> | ->].
  - now rewrite Rmult_1_r.
  - replace (l * -1) with (- l) by lra. apply log_hessian_even.
Qed.

(** In the Logistic family with a target [+1] or [-1] the three statistics
    fit together: seen as a function of one logit, the value has the
    gradient as its derivative, and the gradient has the Hessian diagonal as
    its derivative, although the Hessian is computed from the logit alone
    and the gradient from [logit * target]. *)
Theorem logistic_gradient_and_hessian_are_derivatives (p t : R) :
  t = 1 \/ t = -1 ->
  derivable_pt_lim (fun x => item (QAObjectiveLogLoss.v_func [x] [t])) p
    (item (QAObjectiveLogLoss.g_func [p] [t]))
  /\ derivable_pt_lim (fun x => item (QAObjectiveLogLoss.g_func [x] [t])) p
       (item (QAObjectiveLogLoss.h_func [p] [t])).
Proof.
  intros Ht.
  pose proof (exp_pos (- (t * p))) as Hpos.
  rewrite log_g_func_same_len, log_h_func_any by reflexivity.
  cbn [item zip_with map].
  split.
  - apply derivable_pt_lim_ext with (f := fun x => Spec.log_loss x t).
    { intros z. rewrite log_v_func_same_len by reflexivity.
      cbn [item zip_with]. symmetry. now apply log_value_is_log_loss. }
    rewrite log_gradient_closed_form.
    replace (t * (1 / (1 + exp (- (t * p)))) - t)
      with (/ (1 + exp (- (t * p))) * (- t * exp (- (t * p))))
      by (field; lra).
    apply log_loss_derivative.
  - apply derivable_pt_lim_ext with (f := fun x => Spec.log_gradient x t).
    { intros z. now rewrite log_g_func_same_len by reflexivity. }
    rewrite <- (log_hessian_of_product p t Ht), log_hessian_closed_form.
    replace (p * t) with (t * p) by lra.
    replace (exp (- (t * p)) / Rsqr (1 + exp (- (t * p))))
      with (t * (t * exp (- (t * p)) / Rsqr (1 + exp (- (t * p))))).
    + apply log_gradient_derivative.
    + unfold Rsqr. destruct Ht as [-> | ->]; field; lra.
Qed.

Lemma logistic_gradient_and_hessian_are_derivatives_witness :
  derivable_pt_lim (fun x => item (QAObjectiveLogLoss.v_func [x] [-1])) 2
    (item (QAObjectiveLogLoss.g_func [2] [-1])).
Proof.
  refine (proj1 (logistic_gradient_and_hessian_are_derivatives 2 (-1) _)).
  now right.
Defined.

(** ** Ranges of the Logistic family *)

Lemma log_hessian_range (x : R) : 0 < Spec.log_hessian x <= 0.25.
Proof.
  unfold Spec.log_hessian. rewrite sigmoid_naive.
  pose proof (naive_sigmoid_range x) as [Hlo Hhi].
  generalize dependent (Spec.naive_sigmoid x). intros s Hlo Hhi.
  pose proof (pow2_ge_0 (s - 0.5)) as Hsq. simpl in Hsq.
  split; nra.
Qed.

(** The Hessian diagonal of the Logistic family lies between 0 and 1/4,
    both included, at every position, for arrays of any lengths; and for
    equal-length arrays with targets [+1] or [-1], computing it from the
    logits alone gives what computing it from [logit * target], as the
    gradient does, would give. *)
Theorem logistic_hessian_range_and_symmetry (logit target : ndarray) :
  (exists h : ndarray,
      QAObjectiveLogLoss.h_func logit target = Ok h
      /\ length h = length logit
      /\ Forall (fun y => 0 <= y <= 0.25) h)
  /\ (length logit = length target ->
      Forall (fun t => t = 1 \/ t = -1) target ->
      (lt <- np_mul logit target ;; QAObjectiveLogLoss.h_func lt target)
      = QAObjectiveLogLoss.h_func logit target).
Proof.
  split.
  - exists (map Spec.log_hessian logit).
    split; [apply log_h_func_any |]. split; [apply length_map |].
    apply Forall_forall. intros y Hy.
    apply in_map_iff in Hy as [x [<- _]].
    pose proof (log_hessian_range x). lra.
  - intros Hlen Hpm. unfold np_mul.
    rewrite ufunc2_same_len by exact Hlen. simpl.
    rewrite !log_h_func_any. f_equal. rewrite map_zip_with.
    revert logit Hlen.
    induction Hpm as [| t target Ht Hpm IH]; intros [| l logit] Hlen;
      simpl in *; try discriminate; try reflexivity.
    rewrite IH by (now injection Hlen). now rewrite log_hessian_of_product.
Qed.

Lemma logistic_hessian_range_and_symmetry_witness :
  (lt <- np_mul [2; -3] [1; -1] ;; QAObjectiveLogLoss.h_func lt [1; -1])
  = QAObjectiveLogLoss.h_func [2; -3] [1; -1].
Proof.
  apply (proj2 (logistic_hessian_range_and_symmetry [2; -3] [1; -1]));
    [reflexivity |].
  apply Forall_cons; [now left |].
  apply Forall_cons; [now right | apply Forall_nil].
Defined.

Lemma log_gradient_times_target (l t : R) :
  t = 1 \/ t = -1 -> -1 < Spec.log_gradient l t * t < 0.
Proof.
  intros Ht. unfold Spec.log_gradient. rewrite sigmoid_naive.
  pose proof (naive_sigmoid_range (l * t)) as [Hlo Hhi].
  destruct Ht as [-> | ->]; split; lra.
Qed.

Lemma log_value_positive (l t : R) :
  t = 1 \/ t = -1 -> 0 < Spec.log_value l t.
Proof.
  intros Ht. rewrite log_value_is_log_loss by exact Ht.
  unfold Spec.log_loss. pose proof (exp_pos (- (t * l))) as Hpos.
  rewrite <- ln_1. apply ln_increasing; lra.
Qed.

(** In the Logistic family, on equal-length arrays with targets [+1] or
    [-1]: no value is negative, and every gradient entry [g] against its
    target [t] satisfies [-1 <= g * t <= 0], so the gradient is at most one
    in magnitude and never pushes the logit away from its target. *)
Theorem logistic_value_and_gradient_ranges (logit target : ndarray) :
  length logit = length target ->
  Forall (fun t => t = 1 \/ t = -1) target ->
  exists v g : ndarray,
    QAObjectiveLogLoss.v_func logit target = Ok v
    /\ QAObjectiveLogLoss.g_func logit target = Ok g
    /\ length v = length logit
    /\ length g = length logit
    /\ Forall (fun y => 0 <= y) v
    /\ Forall2 (fun gi ti => -1 <= gi * ti <= 0) g target.
Proof.
  intros Hlen Hpm.
  exists (zip_with Spec.log_value logit target),
         (zip_with Spec.log_gradient logit target).
  split; [now apply log_v_func_same_len |].
  split; [now apply log_g_func_same_len |].
  split; [now apply zip_with_length |].
  split; [now apply zip_with_length |].
  split; revert logit Hlen;
    induction Hpm as [| t target Ht Hpm IH]; intros [| l logit] Hlen;
    simpl in *; try discriminate; constructor; auto.
  - pose proof (log_value_positive l t Ht). lra.
  - pose proof (log_gradient_times_target l t Ht). lra.
Qed.

Lemma logistic_value_and_gradient_ranges_witness :
  exists v g : ndarray,
    QAObjectiveLogLoss.v_func [2; -3] [1; -1] = Ok v
    /\ QAObjectiveLogLoss.g_func [2; -3] [1; -1] = Ok g
    /\ length v = length [2; -3]
    /\ length g = length [2; -3]
    /\ Forall (fun y => 0 <= y) v
    /\ Forall2 (fun gi ti => -1 <= gi * ti <= 0) g [1; -1].
Proof.
  apply (logistic_value_and_gradient_ranges [2; -3] [1; -1]);
    [reflexivity |].
  apply Forall_cons; [now left |].
  apply Forall_cons; [now right | apply Forall_nil].
Defined.

(** ** The sigmoid as a monotone function *)

Lemma naive_sigmoid_increasing (x y : R) :
  x < y -> Spec.naive_sigmoid x < Spec.naive_sigmoid y.
Proof.
  intros Hxy. unfold Spec.naive_sigmoid.
  pose proof (exp_pos (- x)) as Hx. pose proof (exp_pos (- y)) as Hy.
  assert (Hexp : exp (- y) < exp (- x)) by (apply exp_increasing; lra).
  unfold Rdiv. rewrite !Rmult_1_l.
  apply Rinv_lt_contravar; [nra | lra].
Qed.

(** [sigmoid] never decreases: a larger argument never gives a smaller
    result; and it is at least one half on the positive numbers, where the
    score of the Logistic family predicts the label [+1], and at most one
    half elsewhere, where the score predicts [-1]. *)
Theorem sigmoid_monotone_and_half (x y : R) :
  (x <= y -> item (sigmoid [x]) <= item (sigmoid [y]))
  /\ (0 < x -> 0.5 <= item (sigmoid [x]))
  /\ (x <= 0 -> item (sigmoid [x]) <= 0.5).
Proof.
  rewrite !sigmoid_map. cbn [item map]. rewrite !sigmoid_naive.
  split; [| apply naive_sigmoid_half].
  intros [Hlt | ->]; [| lra].
  left. now apply naive_sigmoid_increasing.
Qed.

Lemma sigmoid_monotone_and_half_witness :
  item (sigmoid [1]) <= item (sigmoid [2]).
Proof.
  apply (proj1 (sigmoid_monotone_and_half 1 2)). lra.
Defined.

(** ** Scores *)

Lemma sum_bounds (a : ndarray) :
  Forall (fun y => 0 <= y <= 1) a -> 0 <= sum a <= INR (length a).
Proof.
  induction 1 as [| y a Hy Ha IH].
  - simpl. lra.
  - change (sum (y :: a)) with (y + sum a).
    change (length (y :: a)) with (S (length a)). rewrite S_INR. lra.
Qed.

Lemma sum_one_minus (a : ndarray) :
  sum (map (fun y => 1 - y) a) = INR (length a) - sum a.
Proof.
  induction a as [| y a IH].
  - simpl. lra.
  - change (sum (map (fun y => 1 - y) (y :: a)))
      with (1 - y + sum (map (fun y => 1 - y) a)).
    change (sum (y :: a)) with (y + sum a).
    change (length (y :: a)) with (S (length a)). rewrite S_INR, IH. lra.
Qed.

Lemma INR_length_pos {A : Type} (a : list A) : a <> [] -> 0 < INR (length a).
Proof.
  destruct a as [| x a]; [contradiction |]. intros _.
  change (length (x :: a)) with (S (length a)). rewrite S_INR.
  pose proof (pos_INR (length a)). lra.
Qed.

Lemma mean_one_minus (a : ndarray) :
  a <> [] -> 1 - mean a = mean (map (fun y => 1 - y) a).
Proof.
  intros Hne. unfold mean. rewrite sum_one_minus, length_map.
  pose proof (INR_length_pos a Hne). field. lra.
Qed.

Lemma mean_bounds (a : ndarray) :
  a <> [] -> Forall (fun y => 0 <= y <= 1) a -> 0 <= mean a <= 1.
Proof.
  intros Hne Ha. unfold mean.
  pose proof (INR_length_pos a Hne) as Hn.
  pose proof (sum_bounds a Ha) as [Hlo Hhi].
  split.
  - apply Rmult_le_pos; [exact Hlo |]. left. now apply Rinv_0_lt_compat.
  - apply (Rmult_le_reg_r (INR (length a))); [exact Hn |].
    unfold Rdiv. rewrite Rmult_assoc, Rinv_l by lra. lra.
Qed.

Lemma zip_with_flip_map {A B C D : Type} (f : A -> B -> C) (g : D -> B)
    (a : list A) (d : list D) :
  zip_with f a (map g d) = zip_with (fun y x => f x (g y)) d a.
Proof.
  revert d. induction a as [| x a IH]; intros [| y d]; simpl;
    try reflexivity. now rewrite IH.
Qed.

Lemma zip_with_nonempty {A B C : Type} (f : A -> B -> C)
    (a : list A) (b : list B) :
  length a = length b -> b <> [] -> zip_with f a b <> [].
Proof.
  destruct a, b; simpl; intros Hlen Hne; try discriminate;
    try contradiction.
Qed.

(** The score of the Logistic family is the error rate of the labels read
    off the logits: on equal-length arrays with at least one sample and
    targets [+1] or [-1], it is the fraction of positions whose target
    differs from the predicted label, [+1] for a positive logit and [-1]
    otherwise (a logit of zero counts as [-1]); it lies in [[0, 1]]. *)
Theorem logistic_score_is_error_rate (logit target : ndarray) :
  length logit = length target ->
  target <> [] ->
  Forall (fun t => t = 1 \/ t = -1) target ->
  exists s : R,
    QAObjectiveLogLoss.score logit target = Ok s
    /\ s = mean (zip_with
                   (fun l t =>
                      if Req_dec_T t (if Rgt_dec l 0 then 1 else -1)
                      then 0 else 1) logit target)
    /\ 0 <= s <= 1.
Proof.
  intros Hlen Hne _.
  unfold QAObjectiveLogLoss.score, accuracy_score, sub_scalar, scalar_mul,
    np_gt_scalar.
  rewrite !map_map, length_map, <- Hlen, Nat.eqb_refl. simpl.
  eexists. split; [reflexivity |].
  rewrite zip_with_flip_map.
  rewrite mean_one_minus, map_zip_with
    by (apply zip_with_nonempty; assumption).
  assert (Hext : forall l t : R,
             1 - of_bool (Reqb t (2 * of_bool (Rgtb l 0) - 1))
             = if Req_dec_T t (if Rgt_dec l 0 then 1 else -1)
               then 0 else 1).
  { intros l t. unfold Reqb, Rgtb, of_bool.
    destruct (Rgt_dec l 0).
    - replace (2 * 1 - 1) with 1 by lra. destruct (Req_dec_T t 1); lra.
    - replace (2 * 0 - 1) with (-1) by lra.
      destruct (Req_dec_T t (-1)); lra. }
  rewrite (zip_with_ext _ _ logit target Hext).
  split; [reflexivity |].
  apply mean_bounds; [apply zip_with_nonempty; assumption |].
  apply zip_with_Forall. intros l t.
  destruct (Req_dec_T t (if Rgt_dec l 0 then 1 else -1)); lra.
Qed.

Lemma logistic_score_is_error_rate_witness :
  exists s : R,
    QAObjectiveLogLoss.score [2; 0] [1; -1] = Ok s
    /\ s = mean (zip_with
                   (fun l t =>
                      if Req_dec_T t (if Rgt_dec l 0 then 1 else -1)
                      then 0 else 1) [2; 0] [1; -1])
    /\ 0 <= s <= 1.
Proof.
  apply (logistic_score_is_error_rate [2; 0] [1; -1]);
    [reflexivity | discriminate |].
  apply Forall_cons; [now left |].
  apply Forall_cons; [now right | apply Forall_nil].
Defined.

Lemma sum_squares_nonneg (a b : ndarray) :
  0 <= sum (zip_with (fun x y => (x - y) ^ 2) a b).
Proof.
  unfold sum. revert b.
  induction a as [| x a IH]; intros [| y b]; simpl; try lra.
  specialize (IH b). pose proof (pow2_ge_0 (x - y)) as Hsq.
  simpl in *. lra.
Qed.

Lemma sum_squares_zero (a b : ndarray) :
  length a = length b ->
  sum (zip_with (fun x y => (x - y) ^ 2) a b) = 0 <-> a = b.
Proof.
  revert b. induction a as [| x a IH]; intros [| y b] Hlen;
    simpl in *; try discriminate.
  - split; reflexivity.
  - injection Hlen as Hlen. destruct (IH b Hlen) as [IH1 IH2].
    pose proof (sum_squares_nonneg a b) as Hrest.
    pose proof (pow2_ge_0 (x - y)) as Hsq.
    unfold sum in *. simpl in *. split.
    + intros Hsum. rewrite (IH1 ltac:(lra)). f_equal. nra.
    + intros [= -> ->]. rewrite (IH2 eq_refl). lra.
Qed.

Lemma sum_scalar_mul (c : R) (a : ndarray) :
  sum (map (Rmult c) a) = c * sum a.
Proof.
  induction a as [| x a IH]; simpl; [lra |].
  unfold sum in *. simpl. rewrite IH. lra.
Qed.

Lemma sum_squares_sym (a b : ndarray) :
  sum (zip_with (fun x y => (x - y) ^ 2) a b)
  = sum (zip_with (fun x y => (x - y) ^ 2) b a).
Proof.
  revert b. induction a as [| x a IH]; intros [| y b]; simpl;
    try reflexivity.
  unfold sum in *. simpl in *. rewrite (IH b). lra.
Qed.

(** The score of the L2 family, on equal-length arrays with at least one
    sample: it is twice the mean of the values the family returns, it does
    not change when prediction and target are swapped, it is never
    negative, and it is zero exactly when the prediction equals the
    target. *)
Theorem l2_score_properties (predict target : ndarray) :
  length predict = length target ->
  target <> [] ->
  exists (v : ndarray) (s : R),
    QAObjectiveL2Loss.v_func predict target = Ok v
    /\ QAObjectiveL2Loss.score predict target = Ok s
    /\ s = 2 * mean v
    /\ QAObjectiveL2Loss.score target predict = Ok s
    /\ 0 <= s
    /\ (s = 0 <-> predict = target).
Proof.
  intros Hlen Hne.
  assert (Hne' : predict <> []).
  { destruct predict, target; simpl in *; try discriminate;
      try contradiction. }
  pose proof (INR_length_pos target Hne) as Hn.
  exists (zip_with Spec.l2_value predict target), (Spec.mse target predict).
  split; [now apply l2_v_func_same_len |].
  unfold QAObjectiveL2Loss.score.
  rewrite !mean_squared_error_same_len by auto.
  split; [reflexivity |].
  assert (Hsum : sum (zip_with Spec.l2_value predict target)
                 = 0.5 * sum (zip_with (fun t p => (t - p) ^ 2)
                                target predict)).
  { rewrite (sum_squares_sym target predict).
    now rewrite <- sum_scalar_mul, map_zip_with. }
  unfold Spec.mse, mean.
  rewrite zip_with_length, Hsum, Hlen by exact Hlen.
  split; [replace 0.5 with (/ 2) by lra; field; lra |].
  split; [now rewrite (sum_squares_sym predict target) |].
  pose proof (sum_squares_nonneg target predict) as Hpos.
  split.
  - apply Rmult_le_pos; [exact Hpos |]. left. now apply Rinv_0_lt_compat.
  - rewrite <- (sum_squares_zero predict target Hlen),
      (sum_squares_sym predict target).
    split.
    + intros Hz. apply (Rmult_eq_reg_r (/ INR (length target)));
        [| apply Rinv_neq_0_compat; lra].
      unfold Rdiv in Hz. lra.
    + intros ->. unfold Rdiv. lra.
Qed.

Lemma l2_score_properties_witness :
  exists (v : ndarray) (s : R),
    QAObjectiveL2Loss.v_func [1; 2; 3] [1; 1; 1] = Ok v
    /\ QAObjectiveL2Loss.score [1; 2; 3] [1; 1; 1] = Ok s
    /\ s = 2 * mean v
    /\ QAObjectiveL2Loss.score [1; 1; 1] [1; 2; 3] = Ok s
    /\ 0 <= s
    /\ (s = 0 <-> [1; 2; 3] = [1; 1; 1]).
Proof.
  apply (l2_score_properties [1; 2; 3] [1; 1; 1]);
    [reflexivity | discriminate].
Defined.

(** ** Instances after construction *)

Lemma bind_not_attribute_error {A B : Type} (m : result A)
    (k : A -> result B) :
  m <> Raise AttributeError ->
  (forall a, k a <> Raise AttributeError) ->
  bind m k <> Raise AttributeError.
Proof.
  intros Hm Hk. destruct m as [a | e]; simpl; [apply Hk |].
  intros [= ->]. now apply Hm.
Qed.

Lemma ufunc2_not_attribute_error {A B C : Type} (f : A -> B -> C)
    (a : list A) (b : list B) :
  ufunc2 f a b <> Raise AttributeError.
Proof.
  unfold ufunc2. destruct (broadcast_len _ _); discriminate.
Qed.

Lemma ufunc2_inplace_not_attribute_error {A B : Type} (f : A -> B -> A)
    (a : list A) (b : list B) :
  ufunc2_inplace f a b <> Raise AttributeError.
Proof.
  unfold ufunc2_inplace.
  destruct (broadcast_len _ _) as [n |]; [| discriminate].
  destruct (Nat.eqb n (length a)); discriminate.
Qed.

Lemma np_where_not_attribute_error (c : list bool) (a b : ndarray) :
  np_where c a b <> Raise AttributeError.
Proof.
  unfold np_where.
  destruct (broadcast_len _ _) as [n |]; [| discriminate].
  destruct (broadcast_len _ _); discriminate.
Qed.

Lemma mean_squared_error_not_attribute_error (a b : ndarray) :
  mean_squared_error a b <> Raise AttributeError.
Proof.
  unfold mean_squared_error.
  destruct (negb _); [discriminate |].
  destruct (Nat.eqb _ _); discriminate.
Qed.

Lemma accuracy_score_not_attribute_error (a b : ndarray) :
  accuracy_score a b <> Raise AttributeError.
Proof.
  unfold accuracy_score. destruct (negb _); discriminate.
Qed.

Ltac not_attribute_error :=
  repeat first
    [ discriminate
    | apply ufunc2_not_attribute_error
    | apply ufunc2_inplace_not_attribute_error
    | apply np_where_not_attribute_error
    | apply mean_squared_error_not_attribute_error
    | apply accuracy_score_not_attribute_error
    | rewrite sigmoid_map
    | apply bind_not_attribute_error; [| intros ?] ].

(** Construction leaves every instance ready for use: on an instance that
    one of the three constructors returned, none of [v_func], [g_func],
    [h_func] and [score] raises [AttributeError], whatever the arrays and
    whatever the base class defines.  The constructor of the Huber family
    assigns [epsilon] only after the constructor of the base class has run:
    on the instance as the base class sees it, the value, gradient and
    Hessian diagonal raise [AttributeError]. *)
Theorem constructed_instances_are_usable {Base : Type}
    (base_dict : attr -> option (method Base))
    (base_init : init_args -> result Base) (X W Y H R_ : matrix)
    (epsilon : option R) (n_threads : option nat)
    (approx_type : option string) (self : object Base) :
  new_L2Loss base_init X W Y H R_ n_threads approx_type = Ok self
  \/ new_HuberLoss base_init X W Y H R_ epsilon n_threads approx_type
     = Ok self
  \/ new_LogLoss base_init X W Y H R_ n_threads approx_type = Ok self ->
  (forall (a : attr) (predict target : ndarray),
      call base_dict self a predict target <> Raise AttributeError)
  /\ (forall predict target : ndarray,
         call base_dict (new HuberLoss) a_v_func predict target
         = Raise AttributeError
         /\ call base_dict (new HuberLoss) a_g_func predict target
            = Raise AttributeError
         /\ call base_dict (new HuberLoss) a_h_func predict target
            = Raise AttributeError).
Proof.
  intros Hnew. split; [| intros; repeat split].
  intros a predict target.
  destruct Hnew as [Hnew | [Hnew | Hnew]].
  - unfold new_L2Loss, QAObjectiveL2Loss.__init__ in Hnew.
    destruct (base_init _) as [b | e]; simpl in Hnew; [| discriminate].
    injection Hnew as <-.
    destruct a; unfold call, lookup; simpl;
      unfold static_array, static_float, QAObjectiveL2Loss.v_func,
        QAObjectiveL2Loss.g_func, QAObjectiveL2Loss.h_func,
        QAObjectiveL2Loss.score, np_sub;
      not_attribute_error.
  - rewrite new_HuberLoss_unfold in Hnew.
    destruct (base_init _) as [b | e]; simpl in Hnew; [| discriminate].
    injection Hnew as <-.
    destruct a; unfold call, lookup; simpl;
      unfold bound_array, static_float, QAObjectiveHuberLoss.v_func,
        QAObjectiveHuberLoss.g_func, QAObjectiveHuberLoss.h_func,
        QAObjectiveL2Loss.score, get_epsilon, np_sub; simpl;
      not_attribute_error.
  - unfold new_LogLoss, QAObjectiveLogLoss.__init__ in Hnew.
    destruct (base_init _) as [b | e]; simpl in Hnew; [| discriminate].
    injection Hnew as <-.
    destruct a; unfold call, lookup; simpl;
      unfold static_array, static_float, QAObjectiveLogLoss.v_func,
        QAObjectiveLogLoss.g_func, QAObjectiveLogLoss.h_func,
        QAObjectiveLogLoss.score, np_sub, np_mul;
      not_attribute_error.
Qed.

Lemma constructed_instances_are_usable_witness :
  call (Base := init_args) (fun _ => None)
    {| ob_class := HuberLoss;
       ob_base := Some (base_args [] [] [] [] [] None None);
       ob_epsilon := Some 1e-2 |} a_v_func [1; 2] [3]
  <> Raise AttributeError.
Proof.
  refine (proj1 (constructed_instances_are_usable (fun _ => None) keep_args
                   [] [] [] [] [] None None None _ _) a_v_func [1; 2] [3]).
  right. left. reflexivity.
Defined.

(** * Properties of the utilities *)

(** ** [save] and [load] *)

Lemma string_length_append (a b : string) :
  String.length (a ++ b)%string = (String.length a + String.length b)%nat.
Proof. induction a as [| c a IH]; simpl; [reflexivity | now rewrite IH]. Qed.

Lemma substring_append_skip (a b : string) (n m : nat) :
  substring (String.length a + n) m (a ++ b)%string = substring n m b.
Proof. induction a as [| c a IH]; simpl; [reflexivity | exact IH]. Qed.

Lemma endswith_append (a suffix tail : string) :
  String.length tail = String.length suffix ->
  Utils.endswith (a ++ tail)%string suffix = String.eqb tail suffix.
Proof.
  intros Hlen. unfold Utils.endswith.
  rewrite string_length_append, <- Hlen.
  replace (Nat.leb (String.length tail)
             (String.length a + String.length tail)) with true
    by (symmetry; apply Nat.leb_le; lia).
  replace (String.length a + String.length tail - String.length tail)%nat
    with (String.length a + 0)%nat by lia.
  rewrite substring_append_skip. simpl andb. f_equal.
  clear Hlen. induction tail as [| c tail IH]; simpl;
    [reflexivity | now rewrite IH].
Qed.

Lemma append_assoc (a b c : string) :
  ((a ++ b) ++ c)%string = (a ++ b ++ c)%string.
Proof. induction a as [| x a IH]; simpl; [reflexivity | now rewrite IH]. Qed.

Lemma save_name_gzip_flag (path : string) (filename : option string)
    (gz : option Z) (now : string) :
  Utils.endswith (Utils.save_filename path filename gz now) ".gz"
  = match gz with
    | Some _ => true
    | None => false
    end.
Proof.
  unfold Utils.save_filename.
  destruct filename as [name |], gz as [level |].
  - rewrite <- append_assoc. now rewrite endswith_append.
  - change ".pic"%string with ("." ++ "pic")%string.
    rewrite <- !append_assoc. now rewrite endswith_append.
  - change ("." ++ "gz")%string with ".gz"%string.
    rewrite <- !append_assoc. now rewrite endswith_append.
  - rewrite <- !append_assoc. now rewrite endswith_append.
Qed.

(** [load] opens a file through [gzip] exactly when [save] wrote it through
    [gzip]: whatever the path, the file name and the time stamp are, the
    name that [save] builds ends with [".gz"] if and only if a compression
    level was given. *)
Theorem save_name_selects_opener (path : string) (filename : option string)
    (gz : option Z) (now : string) :
  Utils.endswith (Utils.save_filename path filename gz now) ".gz"
  = match gz with
    | Some _ => true
    | None => false
    end.
Proof. apply save_name_gzip_flag. Qed.

(** What [save] wrote, [load] reads back: on a file system where a file
    read through the opener it was written with gives back the pickled
    object, if [save] returns then [load] of the name it wrote to returns
    the saved object.  [save] only returns for a compression level that is
    absent or between 0 and 9, and it hands the name back only when the
    caller gave none. *)
Theorem save_then_load {fs obj : Type} (os : Utils.filesystem fs obj)
    (st st' : fs) (o : obj) (path : string) (filename : option string)
    (gz : option Z) (now : string) (returned : option string) :
  (forall (s s' : fs) (name : string) (level : option Z) (x : obj),
      Utils.pickle_dump os s name level x = Utils.Return s' ->
      Utils.pickle_load os s' name
        (match level with Some _ => true | None => false end)
      = Utils.Return x) ->
  Utils.save os st o path filename gz now = Utils.Return (st', returned) ->
  Utils.load os st' (Utils.save_filename path filename gz now)
  = Utils.Return o
  /\ match gz with
     | Some level => (0 <= level <= 9)%Z
     | None => True
     end
  /\ returned = match filename with
                | None => Some (Utils.save_filename path filename gz now)
                | Some _ => None
                end.
Proof.
  intros Hrw Hsave. unfold Utils.save in Hsave.
  destruct (Utils.gz_accepted gz) eqn:Hgz; simpl in Hsave; [| discriminate].
  destruct (if Utils.isdir os st path then Utils.Return st
            else Utils.makedirs os st path) as [st1 | e]; [| discriminate].
  destruct (Utils.pickle_dump os st1 _ gz o) as [st2 | e] eqn:Hdump;
    [| discriminate].
  injection Hsave as <- <-.
  split; [| split; [| reflexivity]].
  - unfold Utils.load. rewrite save_name_gzip_flag.
    exact (Hrw _ _ _ _ _ Hdump).
  - destruct gz as [level |]; [| exact I].
    unfold Utils.gz_accepted in Hgz.
    apply andb_true_iff in Hgz as [Hlo Hhi].
    apply Z.leb_le in Hlo, Hhi. now split.
Qed.

Lemma memory_os_reads_what_it_wrote {obj : Type}
    (s s' : Utils.memory_fs obj) (name : string) (level : option Z)
    (x : obj) :
  Utils.pickle_dump (Utils.memory_os obj) s name level x = Utils.Return s' ->
  Utils.pickle_load (Utils.memory_os obj) s' name
    (match level with Some _ => true | None => false end)
  = Utils.Return x.
Proof.
  simpl. intros [= <-]. simpl. rewrite String.eqb_refl.
  now rewrite Bool.eqb_reflx.
Qed.

Lemma save_then_load_witness :
  Utils.load (Utils.memory_os nat)
    [("out/run.gz"%string, (true, 7%nat))]
    (Utils.save_filename "out/" (Some "run"%string) (Some 3%Z) "")
  = Utils.Return 7%nat.
Proof.
  exact (proj1 (save_then_load (Utils.memory_os nat) [] _ 7%nat "out/"
                  (Some "run"%string) (Some 3%Z) "" None
                  memory_os_reads_what_it_wrote eq_refl)).
Defined.

(** ** [mc_split] *)

Lemma split_of_permutation (n n_train n_test : nat) (perm : list nat) :
  Permutation (seq 0 n) perm ->
  let ind_test := firstn n_test perm in
  let ind_train := firstn n_train (skipn n_test perm) in
  NoDup (ind_train ++ ind_test)
  /\ Forall (fun i => (i < n)%nat) (ind_train ++ ind_test)
  /\ length ind_test = Nat.min n_test n
  /\ length ind_train = Nat.min n_train (n - n_test).
Proof.
  intros Hperm ind_test ind_train.
  assert (Hnodup : NoDup perm).
  { apply (Permutation_NoDup Hperm), seq_NoDup. }
  assert (Hlen : length perm = n).
  { rewrite <- (Permutation_length Hperm). apply length_seq. }
  assert (Hsplit : perm = ind_test ++ ind_train
                            ++ skipn n_train (skipn n_test perm)).
  { unfold ind_test, ind_train.
    now rewrite firstn_skipn, firstn_skipn. }
  repeat split.
  - apply (Permutation_NoDup (Permutation_app_comm ind_test ind_train)).
    rewrite Hsplit, app_assoc in Hnodup.
    exact (NoDup_app_remove_r _ _ Hnodup).
  - apply Forall_forall. intros i Hi.
    assert (Hin : In i perm).
    { rewrite Hsplit. apply in_app_or in Hi as [Hi | Hi].
      - apply in_or_app. right. apply in_or_app. now left.
      - apply in_or_app. now left. }
    apply (Permutation_in _ (Permutation_sym Hperm)) in Hin.
    apply in_seq in Hin. lia.
  - unfold ind_test. rewrite length_firstn. lia.
  - unfold ind_train. rewrite length_firstn, length_skipn. lia.
Qed.

(** The splits of [mc_split] are sound whenever the generator's
    [permutation(n)] returns a rearrangement of [0 .. n-1]: there is one
    pair per requested split, and in each pair no index occurs twice, so
    the train and test indices never overlap; every index is below the
    number of entries of the matrix; and the two parts have the sizes that
    the argument check returned, as far as the entries reach. *)
Theorem mc_split_train_test_disjoint {rng size : Type}
    (validate : nat -> size -> size -> Utils.outcome (nat * nat))
    (rs : Utils.random_state rng) (shape : nat * nat) (n_splits : nat)
    (test_size train_size : size) (g : rng)
    (splits : list (list nat * list nat)) :
  (forall (g0 : rng) (n : nat),
      Permutation (seq 0 n) (fst (Utils.permutation rs g0 n))) ->
  Utils.mc_split validate rs shape n_splits test_size train_size g
  = Utils.Return splits ->
  exists n_train n_test : nat,
    validate (fst shape * snd shape)%nat test_size train_size
    = Utils.Return (n_train, n_test)
    /\ length splits = n_splits
    /\ Forall
         (fun pair : list nat * list nat =>
            NoDup (fst pair ++ snd pair)
            /\ Forall (fun i => (i < fst shape * snd shape)%nat)
                 (fst pair ++ snd pair)
            /\ length (snd pair)
               = Nat.min n_test (fst shape * snd shape)
            /\ length (fst pair)
               = Nat.min n_train (fst shape * snd shape - n_test))
         splits.
Proof.
  intros Hperm Hsplit. unfold Utils.mc_split in Hsplit.
  destruct (validate _ test_size train_size) as [[n_train n_test] | e];
    [| discriminate].
  injection Hsplit as <-.
  exists n_train, n_test. split; [reflexivity |].
  generalize (fst shape * snd shape)%nat. intros n.
  revert g. induction n_splits as [| k IH]; intros g; simpl.
  - split; [reflexivity | constructor].
  - specialize (Hperm g n).
    destruct (Utils.permutation rs g n) as [perm g'].
    destruct (IH g') as [Hlen Hall].
    split; [simpl; now rewrite Hlen |].
    constructor; [| exact Hall].
    exact (split_of_permutation n n_train n_test perm Hperm).
Qed.

Lemma mc_split_train_test_disjoint_witness :
  exists n_train n_test : nat,
    Utils.Return (3%nat, 1%nat) = Utils.Return (n_train, n_test)
    /\ length [([1; 2; 3]%nat, [0%nat]); ([1; 2; 3]%nat, [0%nat])] = 2%nat
    /\ Forall
         (fun pair : list nat * list nat =>
            NoDup (fst pair ++ snd pair)
            /\ Forall (fun i => (i < 2 * 3)%nat) (fst pair ++ snd pair)
            /\ length (snd pair) = Nat.min n_test (2 * 3)
            /\ length (fst pair) = Nat.min n_train (2 * 3 - n_test))
         [([1; 2; 3]%nat, [0%nat]); ([1; 2; 3]%nat, [0%nat])].
Proof.
  apply (mc_split_train_test_disjoint (size := unit)
           (fun _ _ _ => Utils.Return (3%nat, 1%nat))
           {| Utils.permutation := fun (g : unit) n => (seq 0 n, g) |}
           (2%nat, 3%nat) 2 tt tt tt).
  - intros g0 n. apply Permutation_refl.
  - reflexivity.
Defined.

(** ** The grid of [plot_loss] *)

Lemma plot_loss_positions_range (n_plots : Z) :
  Forall (fun pos => (1 <= pos <= n_plots)%Z)
    (Utils.plot_loss_positions n_plots).
Proof.
  unfold Utils.plot_loss_positions. apply Forall_forall. intros pos Hpos.
  apply in_map_iff in Hpos as [i [<- Hi]]. apply in_seq in Hi. lia.
Qed.

(** With at least one metric and [max_cols >= 1], [plot_loss] lays out a
    grid that holds every subplot it adds: there are between 1 and
    [max_cols] columns, every position handed to [add_subplot] lies in the
    grid, and the last row is not empty.  Without [max_cols] the grid is a
    single row of [n_plots] columns.  With [max_cols = 0] the division for
    the number of rows raises [ZeroDivisionError]. *)
Theorem plot_loss_grid_holds_all_plots (n_plots max_cols : Z) :
  (1 <= n_plots)%Z ->
  (1 <= max_cols)%Z ->
  (exists n_rows n_cols : Z,
      Utils.plot_loss_grid n_plots n_plots n_plots (Some max_cols)
      = Utils.Return (n_rows, n_cols)
      /\ (1 <= n_cols <= max_cols)%Z
      /\ (1 <= n_rows)%Z
      /\ Forall (fun pos => (1 <= pos <= n_rows * n_cols)%Z)
           (Utils.plot_loss_positions n_plots)
      /\ ((n_rows - 1) * n_cols < n_plots)%Z)
  /\ Utils.plot_loss_grid n_plots n_plots n_plots None
     = Utils.Return (1%Z, n_plots)
  /\ Utils.plot_loss_grid n_plots n_plots n_plots (Some 0%Z)
     = Utils.Throw Utils.ZeroDivisionError.
Proof.
  intros Hn Hm. unfold Utils.plot_loss_grid.
  rewrite !Z.eqb_refl. simpl negb. cbv iota.
  split; [| split; [reflexivity |]].
  - set (c := Z.min max_cols n_plots).
    assert (Hc : (1 <= c <= max_cols)%Z) by (unfold c; lia).
    assert (Hc' : (c <= n_plots)%Z) by (unfold c; lia).
    destruct (Z.eqb_spec c 0) as [H0 | _]; [lia |].
    exists ((n_plots + c - 1) / c)%Z, c.
    pose proof (Z.div_mod (n_plots + c - 1) c ltac:(lia)) as Hdm.
    pose proof (Z.mod_pos_bound (n_plots + c - 1) c ltac:(lia)) as Hmod.
    assert (Hfit : (n_plots <= (n_plots + c - 1) / c * c)%Z) by nia.
    split; [reflexivity |]. split; [exact Hc |].
    split; [nia |]. split; [| nia].
    eapply Forall_impl; [| apply plot_loss_positions_range].
    intros pos Hpos. simpl in Hpos. lia.
  - replace (Z.min 0 n_plots) with 0%Z by lia. reflexivity.
Qed.

Lemma plot_loss_grid_holds_all_plots_witness :
  Utils.plot_loss_grid 8 8 8 None = Utils.Return (1%Z, 8%Z).
Proof.
  refine (proj1 (proj2 (plot_loss_grid_holds_all_plots 8 3 _ _))); lia.
Defined.

(** ** [make_imc_data] *)

Lemma sum_to_ext (n : nat) (f g : nat -> R) :
  (forall l, (l < n)%nat -> f l = g l) -> Utils.sum_to n f = Utils.sum_to n g.
Proof.
  induction n as [| n IH]; intros Hfg; simpl; [reflexivity |].
  rewrite IH by (intros l Hl; apply Hfg; lia).
  now rewrite Hfg by lia.
Qed.

Lemma sum_to_eye (d l : nat) (f : nat -> R) :
  Utils.sum_to d (fun m => f m * (if Nat.eqb m l then 1 else 0))
  = if Nat.ltb l d then f l else 0.
Proof.
  induction d as [| d IH]; simpl; [reflexivity |].
  rewrite IH.
  destruct (Nat.eqb_spec d l) as [-> | Hne].
  - rewrite Nat.ltb_irrefl.
    replace (Nat.ltb l (S l)) with true by (symmetry; apply Nat.ltb_lt; lia).
    lra.
  - destruct (Nat.ltb_spec l d) as [Hlt | Hge].
    + replace (Nat.ltb l (S d)) with true
        by (symmetry; apply Nat.ltb_lt; lia).
      lra.
    + replace (Nat.ltb l (S d)) with false
        by (symmetry; apply Nat.ltb_ge; lia).
      lra.
Qed.

Lemma low_rank_entries (d_1 d_2 k : nat) (xe ye : nat -> nat -> R)
    (i j : nat) :
  (k <= d_1)%nat -> (k <= d_2)%nat ->
  Utils.sum_to k
    (fun l =>
       Utils.sum_to d_1 (fun m => xe i m * (if Nat.eqb m l then 1 else 0))
       * Utils.sum_to d_2 (fun m => ye j m * (if Nat.eqb m l then 1 else 0)))
  = Utils.sum_to k (fun l => xe i l * ye j l).
Proof.
  intros Hk1 Hk2. apply sum_to_ext. intros l Hl.
  rewrite !sum_to_eye.
  replace (Nat.ltb l d_1) with true by (symmetry; apply Nat.ltb_lt; lia).
  replace (Nat.ltb l d_2) with true by (symmetry; apply Nat.ltb_lt; lia).
  reflexivity.
Qed.

Lemma Rgtb_pos (x : R) : 0 < x -> Rgtb x 0 = true.
Proof. intros Hx. unfold Rgtb. destruct (Rgt_dec x 0); [reflexivity | lra]. Qed.

Lemma make_imc_data_returns {rng : Type}
    (rs : Utils.normal_generator rng) (n_1 d_1 n_2 d_2 k : nat)
    (s noise : R) (g : rng) (binarize return_noisy_only : bool) :
  (k <= d_1)%nat ->
  (k <= d_2)%nat ->
  0 < s ->
  (forall (g0 : rng) (sc : R) (n m : nat),
      exists (e : nat -> nat -> R) (g' : rng),
        Utils.normal rs g0 sc n m = Utils.Return (e, g')) ->
  exists data : Utils.imc_data,
    Utils.make_imc_data rs n_1 d_1 n_2 d_2 k (Utils.ScaleFloat s) noise g
      binarize return_noisy_only
    = Utils.Return data.
Proof.
  intros Hk1 Hk2 Hs Hgen. unfold Utils.make_imc_data.
  replace (Nat.leb k d_1) with true by (symmetry; apply Nat.leb_le; lia).
  replace (Nat.leb k d_2) with true by (symmetry; apply Nat.leb_le; lia).
  rewrite (Rgtb_pos s Hs). simpl.
  destruct (Hgen g s n_1 d_1) as (xe & g1 & Hx). rewrite Hx. simpl.
  destruct (Hgen g1 s n_2 d_2) as (ye & g2 & Hy). rewrite Hy. simpl.
  unfold Utils.dot. simpl. rewrite !Nat.eqb_refl. simpl.
  rewrite Nat.eqb_refl. simpl.
  destruct (Rgtb noise 0).
  - match goal with
    | |- context [Utils.normal rs g2 noise n_1 n_2] =>
        destruct (Hgen g2 noise n_1 n_2) as (ne & g3 & Hn); rewrite Hn
    end.
    simpl. eexists. reflexivity.
  - simpl. eexists. reflexivity.
Qed.

Lemma make_imc_data_inv {rng : Type}
    (rs : Utils.normal_generator rng) (n_1 d_1 n_2 d_2 k : nat)
    (scale : Utils.scale_arg) (noise : R) (g : rng)
    (binarize return_noisy_only : bool) (data : Utils.imc_data) :
  Utils.make_imc_data rs n_1 d_1 n_2 d_2 k scale noise g binarize
    return_noisy_only
  = Utils.Return data ->
  (k <= d_1)%nat /\ (k <= d_2)%nat
  /\ exists (xe ye : nat -> nat -> R) (R0 Rn : Utils.array2),
       Utils.out_X data
       = {| Utils.rows := n_1; Utils.cols := d_1; Utils.entry := xe |}
       /\ Utils.out_Y data
          = {| Utils.rows := n_2; Utils.cols := d_2; Utils.entry := ye |}
       /\ (forall i j, Utils.entry R0 i j
                       = Utils.sum_to k (fun l => xe i l * ye j l))
       /\ (Utils.rows Rn = n_1 /\ Utils.cols Rn = n_2)
       /\ (noise <= 0 -> Rn = R0)
       /\ Utils.out_R_noise data
          = (if binarize then Utils.binarized Rn else Rn)
       /\ Utils.out_R data
          = if return_noisy_only then None
            else Some (if binarize then Utils.binarized R0 else R0).
Proof.
  unfold Utils.make_imc_data. intros Hrun.
  destruct (Nat.leb_spec k d_1) as [Hk1 | Hk1]; simpl in Hrun;
    [| discriminate].
  destruct (Nat.leb_spec k d_2) as [Hk2 | Hk2]; simpl in Hrun;
    [| discriminate].
  split; [exact Hk1 |]. split; [exact Hk2 |].
  set (scales := match scale with
                 | Utils.ScaleFloat s0 =>
                     if Rgtb s0 0 then Utils.Return (s0, s0)
                     else Utils.Throw Utils.AssertionError
                 | Utils.ScaleInt _ => Utils.Throw Utils.AssertionError
                 | Utils.ScalePair x_scale y_scale =>
                     Utils.Return (x_scale, y_scale)
                 end) in Hrun.
  destruct scales as [[sx sy] | e]; simpl in Hrun; [| discriminate].
  destruct (Utils.normal rs g sx n_1 d_1) as [[xe g1] | e];
    simpl in Hrun; [| discriminate].
  destruct (Utils.normal rs g1 sy n_2 d_2) as [[ye g2] | e];
    simpl in Hrun; [| discriminate].
  unfold Utils.dot in Hrun. simpl in Hrun.
  rewrite !Nat.eqb_refl in Hrun. simpl in Hrun.
  rewrite Nat.eqb_refl in Hrun. simpl in Hrun.
  match type of Hrun with
  | context [Utils.add_entries ?r _] => set (R0 := r) in Hrun
  end.
  assert (HR0 : forall i j, Utils.entry R0 i j
                            = Utils.sum_to k (fun l => xe i l * ye j l)).
  { intros i j. unfold R0. simpl. now apply low_rank_entries. }
  destruct (Rgtb noise 0) eqn:Hnoise.
  - destruct (Utils.normal rs g2 noise n_1 n_2) as [[ne g3] | e];
      simpl in Hrun; [| discriminate].
    injection Hrun as <-.
    exists xe, ye, R0, (Utils.add_entries R0 ne). simpl.
    repeat split; try assumption.
    intros Hle. rewrite (Rgtb_false _ _ Hle) in Hnoise. discriminate.
  - simpl in Hrun. injection Hrun as <-.
    exists xe, ye, R0, R0. simpl. repeat split; assumption.
Qed.

(** With a positive float [scale], [k] no larger than either feature
    count, no noise and no binarization, [make_imc_data] returns, whenever
    the generator does, a matrix of rank at most [k] built from the first
    [k] features only: it has the shape [n_1] by [n_2], and its entry
    [(i, j)] is the sum over [l < k] of [X[i, l] * Y[j, l]] for the
    returned [X] and [Y]. *)
Theorem make_imc_data_uses_first_k_features {rng : Type}
    (rs : Utils.normal_generator rng) (n_1 d_1 n_2 d_2 k : nat)
    (s noise : R) (g : rng) (return_noisy_only : bool) :
  (k <= d_1)%nat ->
  (k <= d_2)%nat ->
  0 < s ->
  noise <= 0 ->
  (forall (g0 : rng) (sc : R) (n m : nat),
      exists (e : nat -> nat -> R) (g' : rng),
        Utils.normal rs g0 sc n m = Utils.Return (e, g')) ->
  exists data : Utils.imc_data,
    Utils.make_imc_data rs n_1 d_1 n_2 d_2 k (Utils.ScaleFloat s) noise g
      false return_noisy_only
    = Utils.Return data
    /\ Utils.rows (Utils.out_X data) = n_1
    /\ Utils.cols (Utils.out_X data) = d_1
    /\ Utils.rows (Utils.out_Y data) = n_2
    /\ Utils.cols (Utils.out_Y data) = d_2
    /\ Utils.rows (Utils.out_R_noise data) = n_1
    /\ Utils.cols (Utils.out_R_noise data) = n_2
    /\ forall i j : nat,
         Utils.entry (Utils.out_R_noise data) i j
         = Utils.sum_to k
             (fun l => Utils.entry (Utils.out_X data) i l
                       * Utils.entry (Utils.out_Y data) j l).
Proof.
  intros Hk1 Hk2 Hs Hnoise Hgen.
  destruct (make_imc_data_returns rs n_1 d_1 n_2 d_2 k s noise g false
              return_noisy_only Hk1 Hk2 Hs Hgen) as [data Hrun].
  exists data. split; [exact Hrun |].
  destruct (make_imc_data_inv _ _ _ _ _ _ _ _ _ _ _ _ Hrun)
    as (_ & _ & xe & ye & R0 & Rn & HX & HY & HR0 & [Hrows Hcols]
        & Hclean & HRn & HR).
  rewrite HRn, HX, HY. simpl.
  repeat (split; [reflexivity || assumption |]).
  now rewrite (Hclean Hnoise).
Qed.

Lemma make_imc_data_uses_first_k_features_witness :
  exists data : Utils.imc_data,
    Utils.make_imc_data Utils.constant_generator 3 2 4 2 1
      (Utils.ScaleFloat 0.05) 0 tt false true
    = Utils.Return data
    /\ Utils.rows (Utils.out_X data) = 3%nat
    /\ Utils.cols (Utils.out_X data) = 2%nat
    /\ Utils.rows (Utils.out_Y data) = 4%nat
    /\ Utils.cols (Utils.out_Y data) = 2%nat
    /\ Utils.rows (Utils.out_R_noise data) = 3%nat
    /\ Utils.cols (Utils.out_R_noise data) = 4%nat
    /\ forall i j : nat,
         Utils.entry (Utils.out_R_noise data) i j
         = Utils.sum_to 1
             (fun l => Utils.entry (Utils.out_X data) i l
                       * Utils.entry (Utils.out_Y data) j l).
Proof.
  apply (make_imc_data_uses_first_k_features Utils.constant_generator
           3 2 4 2 1 0.05 0 tt true); try lia; try lra.
  intros g0 sc n m. exists (fun _ _ => sc), g0. reflexivity.
Defined.

(** With [binarize], whatever [make_imc_data] returns holds only the labels
    [+1] and [-1], in the noisy matrix and in the clean one when it is
    returned: the targets the Logistic family expects.  Without noise the
    label at [(i, j)] is [+1] exactly when the sum over [l < k] of
    [X[i, l] * Y[j, l]] is not negative, so a product of exactly zero is
    labelled [+1]. *)
Theorem make_imc_data_binarize_gives_labels {rng : Type}
    (rs : Utils.normal_generator rng) (n_1 d_1 n_2 d_2 k : nat)
    (scale : Utils.scale_arg) (noise : R) (g : rng)
    (return_noisy_only : bool) (data : Utils.imc_data) :
  Utils.make_imc_data rs n_1 d_1 n_2 d_2 k scale noise g true
    return_noisy_only
  = Utils.Return data ->
  (forall i j : nat,
      Utils.entry (Utils.out_R_noise data) i j = 1
      \/ Utils.entry (Utils.out_R_noise data) i j = -1)
  /\ (forall R1 : Utils.array2,
         Utils.out_R data = Some R1 ->
         forall i j : nat,
           Utils.entry R1 i j = 1 \/ Utils.entry R1 i j = -1)
  /\ (noise <= 0 ->
      forall i j : nat,
        Utils.entry (Utils.out_R_noise data) i j
        = if Rle_dec 0
               (Utils.sum_to k
                  (fun l => Utils.entry (Utils.out_X data) i l
                            * Utils.entry (Utils.out_Y data) j l))
          then 1 else -1).
Proof.
  intros Hrun.
  destruct (make_imc_data_inv _ _ _ _ _ _ _ _ _ _ _ _ Hrun)
    as (_ & _ & xe & ye & R0 & Rn & HX & HY & HR0 & _ & Hclean & HRn & HR).
  rewrite HRn, HR, HX, HY. simpl.
  split; [| split].
  - intros i j. destruct (Rle_dec 0 (Utils.entry Rn i j)); auto.
  - intros R1 HR1. destruct return_noisy_only; [discriminate |].
    injection HR1 as <-. intros i j. simpl.
    destruct (Rle_dec 0 (Utils.entry R0 i j)); auto.
  - intros Hle i j. rewrite (Hclean Hle), HR0. reflexivity.
Qed.

Lemma constant_generator_total (g0 : unit) (sc : R) (n m : nat) :
  exists (e : nat -> nat -> R) (g' : unit),
    Utils.normal Utils.constant_generator g0 sc n m = Utils.Return (e, g').
Proof. exists (fun _ _ => sc), g0. reflexivity. Qed.

Lemma make_imc_data_binarize_gives_labels_witness :
  exists data : Utils.imc_data,
    Utils.make_imc_data Utils.constant_generator 3 2 4 2 1
      (Utils.ScaleFloat 0.05) 0.1 tt true true
    = Utils.Return data
    /\ forall i j : nat,
         Utils.entry (Utils.out_R_noise data) i j = 1
         \/ Utils.entry (Utils.out_R_noise data) i j = -1.
Proof.
  destruct (make_imc_data_returns Utils.constant_generator 3 2 4 2 1
              0.05 0.1 tt true true ltac:(lia) ltac:(lia) ltac:(lra)
              constant_generator_total) as [data Hrun].
  exists data. split; [exact Hrun |].
  exact (proj1 (make_imc_data_binarize_gives_labels _ _ _ _ _ _ _ _ _ _ _
                  Hrun)).
Defined.

(** [make_imc_data] stops at an assertion, before any number is drawn,
    when [k] exceeds one of the feature counts, when [scale] is an integer
    (such as [scale=1]) and when [scale] is a float that is not positive. *)
Theorem make_imc_data_assertions {rng : Type}
    (rs : Utils.normal_generator rng) (n_1 d_1 n_2 d_2 k : nat)
    (scale : Utils.scale_arg) (noise : R) (g : rng)
    (binarize return_noisy_only : bool) :
  (d_1 < k)%nat \/ (d_2 < k)%nat
  \/ (exists z : Z, scale = Utils.ScaleInt z)
  \/ (exists s : R, scale = Utils.ScaleFloat s /\ s <= 0) ->
  Utils.make_imc_data rs n_1 d_1 n_2 d_2 k scale noise g binarize
    return_noisy_only
  = Utils.Throw Utils.AssertionError.
Proof.
  intros Hbad. unfold Utils.make_imc_data.
  destruct (Nat.leb_spec k d_1) as [Hk1 | Hk1]; simpl; [| reflexivity].
  destruct (Nat.leb_spec k d_2) as [Hk2 | Hk2]; simpl; [| reflexivity].
  destruct Hbad as [Hbad | [Hbad | [[z ->] | [s [-> Hs]]]]]; try lia.
  - reflexivity.
  - now rewrite (Rgtb_false s 0 Hs).
Qed.

Lemma make_imc_data_assertions_witness :
  Utils.make_imc_data Utils.constant_generator 3 2 4 2 1
    (Utils.ScaleInt 1) 0 tt false true
  = Utils.Throw Utils.AssertionError.
Proof.
  apply make_imc_data_assertions. right. right. left. now exists 1%Z.
Defined.

(** ** The value of the Logistic family bounds its score *)

Lemma sum_le_compat (a b : ndarray) :
  Forall2 Rle a b -> sum a <= sum b.
Proof.
  unfold sum. induction 1 as [| x y a b Hxy Hab IH]; simpl; lra.
Qed.

Lemma exp_ge_1 (x : R) : 0 <= x -> 1 <= exp x.
Proof.
  intros [Hx | <-].
  - rewrite <- exp_0. left. now apply exp_increasing.
  - rewrite exp_0. lra.
Qed.

Lemma ln_monotone (x y : R) : 0 < x -> x <= y -> ln x <= ln y.
Proof.
  intros Hx [Hlt | ->]; [left; now apply ln_increasing | lra].
Qed.

Lemma log_value_bounds_error (l t : R) :
  t = 1 \/ t = -1 ->
  (if Req_dec_T t (if Rgt_dec l 0 then 1 else -1) then 0 else 1) * ln 2
  <= Spec.log_value l t.
Proof.
  intros Ht. pose proof (log_value_positive l t Ht) as Hpos.
  destruct (Req_dec_T t (if Rgt_dec l 0 then 1 else -1)) as [Heq | Hne];
    [lra |].
  rewrite log_value_is_log_loss by exact Ht. unfold Spec.log_loss.
  rewrite Rmult_1_l.
  assert (Hprod : 0 <= - (t * l)).
  { destruct (Rgt_dec l 0); destruct Ht as [-> | ->]; lra. }
  apply exp_ge_1 in Hprod. apply ln_monotone; lra.
Qed.

(** The value of the Logistic family controls its score: on equal-length
    arrays with at least one sample and targets [+1] or [-1], the score
    (the error rate) times [log 2] is at most the mean of the values, since
    every misclassified position has a value of at least [log 2]. *)
Theorem logistic_value_bounds_score (logit target : ndarray) :
  length logit = length target ->
  target <> [] ->
  Forall (fun t => t = 1 \/ t = -1) target ->
  exists (v : ndarray) (s : R),
    QAObjectiveLogLoss.v_func logit target = Ok v
    /\ QAObjectiveLogLoss.score logit target = Ok s
    /\ s * ln 2 <= mean v.
Proof.
  intros Hlen Hne Hpm.
  exists (zip_with Spec.log_value logit target).
  unfold QAObjectiveLogLoss.score, accuracy_score, sub_scalar, scalar_mul,
    np_gt_scalar.
  rewrite !map_map, length_map, <- Hlen, Nat.eqb_refl. simpl.
  eexists. split; [now apply log_v_func_same_len |].
  split; [reflexivity |].
  rewrite zip_with_flip_map.
  rewrite mean_one_minus, map_zip_with
    by (apply zip_with_nonempty; assumption).
  unfold mean. rewrite !zip_with_length by exact Hlen.
  pose proof (INR_length_pos target Hne) as Hn. rewrite <- Hlen in Hn.
  unfold Rdiv. rewrite Rmult_assoc, (Rmult_comm (/ _)), <- Rmult_assoc.
  apply Rmult_le_compat_r; [left; now apply Rinv_0_lt_compat |].
  rewrite Rmult_comm, <- sum_scalar_mul, map_zip_with.
  apply sum_le_compat.
  clear Hne Hn. revert logit Hlen.
  induction Hpm as [| t target Ht Hpm IH]; intros [| l logit] Hlen;
    simpl in *; try discriminate; constructor.
  - pose proof (log_value_bounds_error l t Ht) as Hb.
    unfold Reqb, Rgtb, of_bool in *.
    destruct (Rgt_dec l 0).
    + replace (2 * 1 - 1) with 1 by lra.
      destruct (Req_dec_T t 1); lra.
    + replace (2 * 0 - 1) with (-1) by lra.
      destruct (Req_dec_T t (-1)); lra.
  - apply IH. now injection Hlen.
Qed.

Lemma logistic_value_bounds_score_witness :
  exists (v : ndarray) (s : R),
    QAObjectiveLogLoss.v_func [2; 0] [-1; 1] = Ok v
    /\ QAObjectiveLogLoss.score [2; 0] [-1; 1] = Ok s
    /\ s * ln 2 <= mean v.
Proof.
  apply (logistic_value_bounds_score [2; 0] [-1; 1]);
    [reflexivity | discriminate |].
  apply Forall_cons; [now right |].
  apply Forall_cons; [now left | apply Forall_nil].
Defined.

(** ** The Huber family at its threshold *)

Lemma continuity_pt_of_lipschitz (f : R -> R) (x : R) :
  (forall h, Rabs (f (x + h) - f x) <= Rabs h) -> continuity_pt f x.
Proof.
  intros Hlip e He. exists e. split; [exact He |].
  intros y [_ Hdist]. simpl in *. unfold R_dist in *.
  specialize (Hlip (y - x)).
  replace (x + (y - x)) with y in Hlip by lra. lra.
Qed.

Lemma continuity_pt_pointwise (f g : R -> R) (x : R) :
  (forall z, f z = g z) -> continuity_pt f x -> continuity_pt g x.
Proof.
  intros Hfg Hc e He. destruct (Hc e He) as [a [Ha Hlim]].
  exists a. split; [exact Ha |]. intros y Hy. rewrite <- !Hfg.
  now apply Hlim.
Qed.

Lemma huber_gradient_lipschitz (eps p t h : R) :
  0 < eps ->
  Rabs (Spec.huber_gradient eps (p + h) t - Spec.huber_gradient eps p t)
  <= Rabs h.
Proof.
  intros Heps. unfold Spec.huber_gradient, sign.
  replace (p + h - t) with ((p - t) + h) by lra.
  generalize (p - t). intros r.
  unfold Rabs. case_reals; lra.
Qed.

Lemma huber_value_continuous {Base : Type} (self : object Base)
    (eps p t : R) :
  ob_epsilon self = Some eps ->
  0 < eps ->
  continuity_pt
    (fun x => item (QAObjectiveHuberLoss.v_func self [x] [t])) p.
Proof.
  intros Hself Heps. apply derivable_continuous_pt.
  exists (Spec.huber_gradient eps p t).
  apply derivable_pt_lim_ext with (f := fun x => Spec.huber_value eps x t).
  - intros z. now rewrite (huber_v_func_same_len _ _ Hself) by reflexivity.
  - apply derivable_pt_lim_of_square_bound. intros h.
    now apply huber_value_square_bound.
Qed.

(** C4: in the Huber family with [epsilon > 0], at every position of two
    equal-length arrays the value [v_func] returns is
    [epsilon*(|predict - target| - epsilon/2)] when
    [|predict - target| > epsilon], where the gradient has magnitude
    [epsilon], and [0.5*(predict - target)^2], the value of the L2 family at
    that position, when [|predict - target| <= epsilon]; at
    [|predict - target| = epsilon] the value returned is also what the
    formula of the other branch gives.  The two branches meet: as a
    function of one prediction the value is continuous everywhere, the
    threshold included. *)
Theorem huber_threshold_properties {Base : Type} (self : object Base)
    (eps : R) (predict target : ndarray) :
  ob_epsilon self = Some eps ->
  eps > 0 ->
  length predict = length target ->
  (exists v g l2v : ndarray,
      QAObjectiveHuberLoss.v_func self predict target = Ok v
      /\ QAObjectiveHuberLoss.g_func self predict target = Ok g
      /\ QAObjectiveL2Loss.v_func predict target = Ok l2v
      /\ forall (i : nat) (p t : R),
           nth_error predict i = Some p ->
           nth_error target i = Some t ->
           exists vi gi : R,
             nth_error v i = Some vi
             /\ nth_error g i = Some gi
             /\ (Rabs (p - t) > eps ->
                 vi = eps * (Rabs (p - t) - eps / 2) /\ Rabs gi = eps)
             /\ (Rabs (p - t) <= eps ->
                 vi = 0.5 * (p - t) ^ 2 /\ nth_error l2v i = Some vi)
             /\ (Rabs (p - t) = eps ->
                 vi = eps * (Rabs (p - t) - eps / 2)
                 /\ vi = 0.5 * Rabs (p - t) ^ 2))
  /\ (forall p t : R,
         continuity_pt
           (fun x => item (QAObjectiveHuberLoss.v_func self [x] [t])) p)
  /\ (forall t : R,
         item (QAObjectiveHuberLoss.v_func self [t + eps] [t])
         = 0.5 * eps ^ 2
         /\ item (QAObjectiveHuberLoss.v_func self [t - eps] [t])
            = 0.5 * eps ^ 2
         /\ forall h : R,
              0 < h ->
              item (QAObjectiveHuberLoss.v_func self [t + eps + h] [t])
              = 0.5 * eps ^ 2 + eps * h).
Proof.
  intros Heps Hpos Hlen. split; [| split].
  - exists (zip_with (Spec.huber_value eps) predict target),
           (zip_with (Spec.huber_gradient eps) predict target),
           (zip_with Spec.l2_value predict target).
    split; [now apply huber_v_func_same_len |].
    split; [now apply huber_g_func_same_len |].
    split; [now apply l2_v_func_same_len |].
    intros i p t Hp Ht.
    exists (Spec.huber_value eps p t), (Spec.huber_gradient eps p t).
    split; [now apply zip_with_nth_error |].
    split; [now apply zip_with_nth_error |].
    unfold Spec.huber_value, Spec.huber_gradient, Spec.huber_linear,
      Spec.huber_quadratic.
    destruct (Rgt_dec (Rabs (p - t)) eps) as [Hgt | Hle].
    + split; [| split; intros; lra].
      intros _. split; [reflexivity |].
      rewrite Rabs_mult, sign_abs.
      * rewrite Rabs_right; lra.
      * intros H0. rewrite H0, Rabs_R0 in Hgt. lra.
    + split; [intros; lra |]. split.
      * intros _. split; [now rewrite Rabs_sqr_pow |].
        rewrite (zip_with_nth_error Spec.l2_value _ _ _ _ _ Hp Ht).
        unfold Spec.l2_value. now rewrite Rabs_sqr_pow.
      * intros Heq. split; [| reflexivity]. rewrite Heq. nra.
  - intros p t. apply (huber_value_continuous self eps p t Heps). lra.
  - intros t.
    rewrite !(huber_v_func_same_len _ _ Heps) by reflexivity.
    cbn [item zip_with].
    unfold Spec.huber_value, Spec.huber_linear, Spec.huber_quadratic.
    replace (t + eps - t) with eps by lra.
    replace (t - eps - t) with (- eps) by lra.
    rewrite Rabs_Ropp, (Rabs_right eps) by lra.
    destruct (Rgt_dec eps eps) as [Hgt | _]; [lra |].
    repeat split.
    intros h Hh.
    rewrite (huber_v_func_same_len _ _ Heps) by reflexivity.
    cbn [item zip_with].
    unfold Spec.huber_value, Spec.huber_linear, Spec.huber_quadratic.
    replace (t + eps + h - t) with (eps + h) by lra.
    rewrite (Rabs_right (eps + h)) by lra.
    destruct (Rgt_dec (eps + h) eps) as [_ | Hle]; [nra | lra].
Qed.

Lemma huber_threshold_properties_witness :
  (exists v g l2v : ndarray,
      QAObjectiveHuberLoss.v_func
          (set_epsilon (new (Base := unit) HuberLoss) 1)
          [1; 3; 0] [0; 0; 0] = Ok v
      /\ QAObjectiveHuberLoss.g_func
          (set_epsilon (new (Base := unit) HuberLoss) 1)
          [1; 3; 0] [0; 0; 0] = Ok g
      /\ QAObjectiveL2Loss.v_func [1; 3; 0] [0; 0; 0] = Ok l2v
      /\ forall (i : nat) (p t : R),
           nth_error [1; 3; 0] i = Some p ->
           nth_error [0; 0; 0] i = Some t ->
           exists vi gi : R,
             nth_error v i = Some vi
             /\ nth_error g i = Some gi
             /\ (Rabs (p - t) > 1 ->
                 vi = 1 * (Rabs (p - t) - 1 / 2) /\ Rabs gi = 1)
             /\ (Rabs (p - t) <= 1 ->
                 vi = 0.5 * (p - t) ^ 2 /\ nth_error l2v i = Some vi)
             /\ (Rabs (p - t) = 1 ->
                 vi = 1 * (Rabs (p - t) - 1 / 2)
                 /\ vi = 0.5 * Rabs (p - t) ^ 2))
  /\ (forall p t : R,
         continuity_pt
           (fun x => item (QAObjectiveHuberLoss.v_func
               (set_epsilon (new (Base := unit) HuberLoss) 1)
               [x] [t])) p)
  /\ (forall t : R,
         item (QAObjectiveHuberLoss.v_func
             (set_epsilon (new (Base := unit) HuberLoss) 1)
             [t + 1] [t])
         = 0.5 * 1 ^ 2
         /\ item (QAObjectiveHuberLoss.v_func
             (set_epsilon (new (Base := unit) HuberLoss) 1)
             [t - 1] [t])
            = 0.5 * 1 ^ 2
         /\ forall h : R,
              0 < h ->
              item (QAObjectiveHuberLoss.v_func
                  (set_epsilon (new (Base := unit) HuberLoss) 1)
                  [t + 1 + h] [t])
              = 0.5 * 1 ^ 2 + 1 * h).
Proof.
  apply (huber_threshold_properties
           (set_epsilon (new (Base := unit) HuberLoss) 1) 1
           [1; 3; 0] [0; 0; 0]).
  - reflexivity.
  - lra.
  - reflexivity.
Defined.

(** C10: in the Huber family with [epsilon > 0], at every position of two
    equal-length arrays the gradient [g_func] returns is
    [epsilon * sign(predict - target)] when
    [|predict - target| > epsilon] and [predict - target] when
    [|predict - target| <= epsilon]; at [|predict - target| = epsilon] the
    branch of the quadratic region is taken and what it returns is also
    what the formula of the linear region gives.  The two branches meet: as
    a function of one prediction the gradient is continuous everywhere, the
    threshold included. *)
Theorem huber_gradient_continuous {Base : Type} (self : object Base)
    (eps : R) (predict target : ndarray) :
  ob_epsilon self = Some eps ->
  eps > 0 ->
  length predict = length target ->
  (exists g : ndarray,
      QAObjectiveHuberLoss.g_func self predict target = Ok g
      /\ forall (i : nat) (p t : R),
           nth_error predict i = Some p ->
           nth_error target i = Some t ->
           exists gi : R,
             nth_error g i = Some gi
             /\ (Rabs (p - t) > eps -> gi = eps * sign (p - t))
             /\ (Rabs (p - t) <= eps -> gi = p - t)
             /\ (Rabs (p - t) = eps ->
                 Rgtb (Rabs (p - t)) eps = false
                 /\ gi = p - t
                 /\ gi = eps * sign (p - t)))
  /\ (forall p t : R,
         continuity_pt
           (fun x => item (QAObjectiveHuberLoss.g_func self [x] [t])) p)
  /\ (forall t : R,
         item (QAObjectiveHuberLoss.g_func self [t + eps] [t]) = eps
         /\ item (QAObjectiveHuberLoss.g_func self [t - eps] [t]) = - eps
         /\ forall h : R,
              0 < h ->
              item (QAObjectiveHuberLoss.g_func self [t + eps + h] [t])
              = eps
              /\ item (QAObjectiveHuberLoss.g_func self [t - eps - h] [t])
                 = - eps).
Proof.
  intros Heps Hpos Hlen. split; [| split].
  - exists (zip_with (Spec.huber_gradient eps) predict target).
    split; [now apply huber_g_func_same_len |].
    intros i p t Hp Ht. exists (Spec.huber_gradient eps p t).
    split; [now apply zip_with_nth_error |].
    unfold Spec.huber_gradient.
    destruct (Rgt_dec (Rabs (p - t)) eps) as [Hgt | Hle].
    + split; [reflexivity |]. split; intros; lra.
    + split; [intros; lra |]. split; [reflexivity |].
      intros Habs. split; [apply Rgtb_false; lra |].
      split; [reflexivity |].
      rewrite <- Habs. now rewrite sign_mul_abs.
  - intros p t.
    apply continuity_pt_pointwise
      with (f := fun x => Spec.huber_gradient eps x t).
    + intros z.
      now rewrite (huber_g_func_same_len _ _ Heps) by reflexivity.
    + apply continuity_pt_of_lipschitz. intros h.
      apply huber_gradient_lipschitz. lra.
  - intros t.
    rewrite !(huber_g_func_same_len _ _ Heps) by reflexivity.
    cbn [item zip_with].
    unfold Spec.huber_gradient, sign.
    replace (t + eps - t) with eps by lra.
    replace (t - eps - t) with (- eps) by lra.
    rewrite Rabs_Ropp, (Rabs_right eps) by lra.
    destruct (Rgt_dec eps eps) as [Hgt | _]; [lra |].
    repeat split;
      rewrite (huber_g_func_same_len _ _ Heps) by reflexivity;
      cbn [item zip_with]; unfold Spec.huber_gradient, sign.
    + replace (t + eps + h - t) with (eps + h) by lra.
      rewrite (Rabs_right (eps + h)) by lra.
      case_reals; lra.
    + replace (t - eps - h - t) with (- (eps + h)) by lra.
      rewrite Rabs_Ropp, (Rabs_right (eps + h)) by lra.
      case_reals; lra.
Qed.

Lemma huber_gradient_continuous_witness :
  (exists g : ndarray,
      QAObjectiveHuberLoss.g_func
          (set_epsilon (new (Base := unit) HuberLoss) 2)
          [5; 1; 9] [3; 3; 3] = Ok g
      /\ forall (i : nat) (p t : R),
           nth_error [5; 1; 9] i = Some p ->
           nth_error [3; 3; 3] i = Some t ->
           exists gi : R,
             nth_error g i = Some gi
             /\ (Rabs (p - t) > 2 -> gi = 2 * sign (p - t))
             /\ (Rabs (p - t) <= 2 -> gi = p - t)
             /\ (Rabs (p - t) = 2 ->
                 Rgtb (Rabs (p - t)) 2 = false
                 /\ gi = p - t
                 /\ gi = 2 * sign (p - t)))
  /\ (forall p t : R,
         continuity_pt
           (fun x => item (QAObjectiveHuberLoss.g_func
               (set_epsilon (new (Base := unit) HuberLoss) 2)
               [x] [t])) p)
  /\ (forall t : R,
         item (QAObjectiveHuberLoss.g_func
             (set_epsilon (new (Base := unit) HuberLoss) 2)
             [t + 2] [t]) = 2
         /\ item (QAObjectiveHuberLoss.g_func
             (set_epsilon (new (Base := unit) HuberLoss) 2)
             [t - 2] [t]) = - 2
         /\ forall h : R,
              0 < h ->
              item (QAObjectiveHuberLoss.g_func
                  (set_epsilon (new (Base := unit) HuberLoss) 2)
                  [t + 2 + h] [t])
              = 2
              /\ item (QAObjectiveHuberLoss.g_func
                  (set_epsilon (new (Base := unit) HuberLoss) 2)
                  [t - 2 - h] [t])
                 = - 2).
Proof.
  apply (huber_gradient_continuous
           (set_epsilon (new (Base := unit) HuberLoss) 2) 2
           [5; 1; 9] [3; 3; 3]).
  - reflexivity.
  - lra.
  - reflexivity.
Defined.
